(** * SonyA6000Monitor: a shallow embedding of the application logic

    The repository is a React front end.  Its own logic sits in a few
    handlers: the aspect-guide toggle (ControlPanel.tsx), the chroma-key
    pass (LiveView.tsx), the double-clap detector (AudioMonitor), the
    teleprompter's tokenizer, speech aligner and volume detector
    (Teleprompter) and the recorder callbacks (App).  Each handler is
    embedded as a function of the variables it reads; what a handler
    closes over (the values of the render that created it) is an explicit
    argument, and React state is threaded through small state records.

    Numbers.  JavaScript numbers are doubles.  Every number compared below
    is an integer (a byte, a millisecond count, a counter) or a dyadic or
    decimal rational whose comparison a double decides exactly:
    [r * 1.5] for a byte [r] is exact, [k / 128] is exact, and no value
    [k / 128] or [sum / 128] lies between a decimal constant and its
    nearest double.  Integers are [Z], the others [Q]. *)

From stdpp Require Import base list.
From Stdlib Require Import ZArith QArith Qabs Lia Bool Ascii String.
From Stdlib Require Import DecimalString.
From Stdlib Require Import Qround Qminmax.

Local Open Scope Z_scope.

(** JavaScript's [x > y] on numbers, over the rationals. *)
Definition Qgtb (x y : Q) : bool := negb (Qle_bool x y).

(* ================================================================== *)
(** ** ControlPanel.tsx *)

Module ControlPanel.

(** [type AspectRatioGuide = 'none' | '9:16' | '4:5' | '1:1'] *)
Inductive AspectRatioGuide : Type :=
| GuideNone
| Guide9x16
| Guide4x5
| Guide1x1.

(** [toggleGuide]: reads the [activeGuide] prop and hands the next
    value to [onChangeGuide]; the result is that next value. *)
Definition toggleGuide (activeGuide : AspectRatioGuide) : AspectRatioGuide :=
  match activeGuide with
  | GuideNone => Guide9x16
  | Guide9x16 => Guide4x5
  | Guide4x5 => Guide1x1
  | _ => GuideNone
  end.


(** [interface CameraSettings] of types.ts. *)
Record CameraSettings : Type := mkSettings {
  iso : Z;
  aperture : Q;
  shutterSpeed : string;
  wb : string
}.

(** [adjustISO(delta)]: the settings handed to [onUpdate]. *)
Definition adjustISO (delta : Z) (settings : CameraSettings) : CameraSettings :=
  let newVal := Z.max 100 (Z.min 25600 (iso settings + delta)) in
  mkSettings newVal (aperture settings) (shutterSpeed settings) (wb settings).

(** [parseFloat(x.toFixed(1))] for a positive [x]: the multiple of 0.1
    nearest to [x], the larger one at a tie. *)
Definition toFixed1 (x : Q) : Q := Qfloor (x * 10 + (1 # 2)) # 10.

(** [adjustAperture(delta)].  The buttons pass 0.1 and -0.1 and the
    stored aperture is the double nearest a multiple of 0.1 between 1.4
    and 22.  The double sum is then within 1e-14 of the exact sum, the
    clamp keeps that distance, and [toFixed(1)] returns the multiple of
    0.1 nearest to it, which is the one nearest to the exact clamped
    sum; so on these values the exact arithmetic below gives the result
    of the doubles. *)
Definition adjustAperture (delta : Q) (settings : CameraSettings)
  : CameraSettings :=
  let newVal := Qmax 1.4 (Qmin 22 (aperture settings + delta)) in
  mkSettings (iso settings) (toFixed1 newVal) (shutterSpeed settings)
             (wb settings).

End ControlPanel.

(* ================================================================== *)
(** ** LiveView.tsx: the chroma-key pass *)

Module LiveView.

(** [frame.data]: a [Uint8ClampedArray], four entries per pixel. *)
Abbreviation ImageData := (list Z).

(** Reading [frame.data[k]]; the loop only reads inside the buffer. *)
Definition rd (data : ImageData) (k : nat) : Z := default 0 (data !! k).

(** [g > 100 && g > r * 1.5 && g > b * 1.5] *)
Definition greenDominant (r g b : Z) : bool :=
  (100 <? g)
  && Qgtb (inject_Z g) (inject_Z r * 1.5)
  && Qgtb (inject_Z g) (inject_Z b * 1.5).

(** One iteration of the loop body at pixel [i]. *)
Definition keyPixel (i : nat) (data : ImageData) : ImageData :=
  let r := rd data (i * 4 + 0) in
  let g := rd data (i * 4 + 1) in
  let b := rd data (i * 4 + 2) in
  if greenDominant r g b then <[(i * 4 + 3)%nat := 0]> data else data.

(** [for (let i = 0; i < l; i++) { ... }], with [n] iterations left. *)
Fixpoint keyLoop (n i : nat) (data : ImageData) : ImageData :=
  match n with
  | O => data
  | S n' => keyLoop n' (S i) (keyPixel i data)
  end.

(** The pass of [processFrame]: [l = frame.data.length / 4]. *)
Definition chromaKey (data : ImageData) : ImageData :=
  keyLoop (List.length data / 4)%nat 0%nat data.


(** The branch of [startVideo]'s [catch] on [err.name]. *)
Inductive ErrorType : Type := ErrPermission | ErrDevice | ErrGeneric.

Definition classifyError (name : string) : ErrorType :=
  if (name =? "NotFoundError")%string || (name =? "DevicesNotFoundError")%string
  then ErrDevice
  else if (name =? "NotAllowedError")%string
          || (name =? "PermissionDeniedError")%string
       then ErrPermission
       else ErrGeneric.

(** [renderNoSignal]: the message and the line under it, for the
    [errorType] state ([None] is null). *)
Definition noSignalText (errorType : option ErrorType) : string * string :=
  match errorType with
  | Some ErrDevice =>
      ("NO CAMERA FOUND"%string, "Check your capture card connection"%string)
  | Some ErrPermission =>
      ("PERMISSION DENIED"%string,
       "Allow camera access in browser settings"%string)
  | _ => ("NO SIGNAL"%string, ""%string)
  end.

End LiveView.

(* ================================================================== *)
(** ** The JavaScript string operations the handlers call

    A string is a sequence of code units; the model covers the code
    units below 256 (ASCII and Latin-1), one [ascii] each. *)

Module JS.

Local Open Scope string_scope.

Definition code (c : ascii) : nat := nat_of_ascii c.

(** The class [\s] of a regular expression, which is also what [trim]
    removes: TAB, LF, VT, FF, CR, space and the no-break space. *)
Definition isSpace (c : ascii) : bool :=
  ((9 <=? code c)%nat && (code c <=? 13)%nat)
  || (code c =? 32)%nat || (code c =? 160)%nat.

(** The class [\w]: [A-Za-z0-9_]. *)
Definition isWordChar (c : ascii) : bool :=
  ((65 <=? code c)%nat && (code c <=? 90)%nat)
  || ((97 <=? code c)%nat && (code c <=? 122)%nat)
  || ((48 <=? code c)%nat && (code c <=? 57)%nat)
  || (code c =? 95)%nat.

(** [toLowerCase] on one code unit: A-Z and the Latin-1 capitals. *)
Definition lowerChar (c : ascii) : ascii :=
  if ((65 <=? code c)%nat && (code c <=? 90)%nat)
     || ((192 <=? code c)%nat && (code c <=? 222)%nat
         && negb (code c =? 215)%nat)
  then ascii_of_nat (code c + 32)
  else c.

Fixpoint toLowerCase (s : string) : string :=
  match s with
  | EmptyString => EmptyString
  | String c s' => String (lowerChar c) (toLowerCase s')
  end.

(** [s.replace(/[^\w\s]/g, '')] *)
Fixpoint stripPunctuation (s : string) : string :=
  match s with
  | EmptyString => EmptyString
  | String c s' =>
      if isWordChar c || isSpace c
      then String c (stripPunctuation s')
      else stripPunctuation s'
  end.

Fixpoint trimStart (s : string) : string :=
  match s with
  | EmptyString => EmptyString
  | String c s' => if isSpace c then trimStart s' else s
  end.

Fixpoint trimEnd (s : string) : string :=
  match s with
  | EmptyString => EmptyString
  | String c s' =>
      match trimEnd s' with
      | EmptyString => if isSpace c then EmptyString else String c EmptyString
      | r => String c r
      end
  end.

Definition trim (s : string) : string := trimEnd (trimStart s).

Fixpoint startsWith (s p : string) : bool :=
  match p, s with
  | EmptyString, _ => true
  | String a p', String b s' => Ascii.eqb a b && startsWith s' p'
  | String _ _, EmptyString => false
  end.

(** [hay.includes(needle)] *)
Fixpoint includes (hay needle : string) : bool :=
  startsWith hay needle
  || match hay with
     | EmptyString => false
     | String _ hay' => includes hay' needle
     end.

Definition notSpace (c : ascii) : bool := negb (isSpace c).

(** Every character of [s] is in the class [p]. *)
Fixpoint everyChar (p : ascii -> bool) (s : string) : bool :=
  match s with
  | EmptyString => true
  | String c s' => p c && everyChar p s'
  end.

(** Splitting at every character of a class: [cur] is the field read
    so far.  [s.split(' ')] is [fieldsBy isBlank "" s]. *)
Fixpoint fieldsBy (sep : ascii -> bool) (cur s : string) : list string :=
  match s with
  | EmptyString => [cur]
  | String c s' =>
      if sep c then cur :: fieldsBy sep EmptyString s'
      else fieldsBy sep (cur ++ String c EmptyString) s'
  end.

Definition isBlank (c : ascii) : bool := (code c =? 32)%nat.

Definition splitSpace (s : string) : list string :=
  fieldsBy isBlank EmptyString s.

(** [s.split(/(\s+)/)]: the pieces between the maximal whitespace
    runs, with the runs themselves (the capture group) in between.
    [inRun] says whether [cur] is a run being read. *)
Fixpoint splitRunsFrom (inRun : bool) (cur s : string) : list string :=
  match s with
  | EmptyString => if inRun then [cur; EmptyString] else [cur]
  | String c s' =>
      if isSpace c then
        if inRun then splitRunsFrom true (cur ++ String c EmptyString) s'
        else cur :: splitRunsFrom true (String c EmptyString) s'
      else
        if inRun then cur :: splitRunsFrom false (String c EmptyString) s'
        else splitRunsFrom false (cur ++ String c EmptyString) s'
  end.

Definition splitRuns (s : string) : list string :=
  splitRunsFrom false EmptyString s.

(** [s.replace(/\s+/g, '_')]: [afterSpace] says the previous
    character was whitespace (its run already gave its underscore). *)
Fixpoint underscoreRunsFrom (afterSpace : bool) (s : string) : string :=
  match s with
  | EmptyString => EmptyString
  | String c s' =>
      if isSpace c then
        if afterSpace then underscoreRunsFrom true s'
        else String "_" (underscoreRunsFrom true s')
      else String c (underscoreRunsFrom false s')
  end.

Definition underscoreRuns (s : string) : string :=
  underscoreRunsFrom false s.

(** [String(n)] for an integer. *)
Definition numberToString (n : Z) : string :=
  NilEmpty.string_of_int (Z.to_int n).

(** Every integer from [from] on, [count] of them, prints with [len]
    characters. *)
Definition lengthsBelow (len : nat) (from count : Z) : bool :=
  List.forallb
    (fun n => (String.length (numberToString (Z.of_nat n)) =? len)%nat)
    (List.seq (Z.to_nat from) (Z.to_nat count)).

(** [String(n).padStart(2, '0')] *)
Definition pad2 (n : Z) : string :=
  let s := numberToString n in
  if (String.length s <? 2)%nat then "0" ++ s else s.

End JS.

(* ================================================================== *)
(** ** Teleprompter: tokenizer, speech aligner, volume detector *)

Module Teleprompter.

(** [w => w.trim().length > 0] *)
Definition kept (w : string) : bool := (0 <? String.length (JS.trim w))%nat.

(** [words = useMemo(() => text.split(/(\s+)/).filter(w =>
    w.trim().length > 0), [text])] *)
Definition words (text : string) : list string :=
  List.filter kept (JS.splitRuns text).

(** The tokenization as the specification words it: split the script
    at whitespace and discard the empty tokens.  [words] is compared
    with it below. *)
Definition tokensBySpec (text : string) : list string :=
  List.filter (fun w => negb (w =? "")%string)
              (JS.fieldsBy JS.isSpace ""%string text).

(** *** matchTextToScript *)

Definition searchWindow : nat := 50.

(** The test of the loop body, for the script token [words[i]]. *)
Definition fuzzyMatch (token lastSpokenWord : string) : bool :=
  let scriptWord := JS.stripPunctuation (JS.toLowerCase token) in
  (scriptWord =? lastSpokenWord)%string
  || ((3 <? String.length scriptWord)%nat
      && JS.includes lastSpokenWord scriptWord).

(** [for (let i = startIndex; i < endIndex; i++)], with [n] indices
    left; the result is the [i] of [setCurrentWordIndex(i)] at the
    [break], or [None] when the loop runs out. *)
Fixpoint scan (ws : list string) (lastSpokenWord : string)
         (n i : nat) : option nat :=
  match n with
  | O => None
  | S n' =>
      if fuzzyMatch (default ""%string (ws !! i)) lastSpokenWord
      then Some i
      else scan ws lastSpokenWord n' (S i)
  end.

Definition lastSpokenWord (transcript : string) : string :=
  List.last (JS.splitSpace transcript) ""%string.

(** [matchTextToScript(transcript)] as a function of the two variables
    of its closure, [words] and [currentWordIndex]. *)
Definition matchTextToScript (ws : list string) (currentWordIndex : nat)
           (transcript : string) : option nat :=
  let startIndex := currentWordIndex in
  let endIndex := Nat.min (List.length ws) (startIndex + searchWindow) in
  scan ws (lastSpokenWord transcript) (endIndex - startIndex) startIndex.

(** The cursor after the call. *)
Definition cursorAfter (ws : list string) (currentWordIndex : nat)
           (transcript : string) : nat :=
  default currentWordIndex (matchTextToScript ws currentWordIndex transcript).

(** *** The component in smart mode

    [recognition.onresult] is installed by the effect whose dependency
    list is [[mode, isListening, words]].  It calls the
    [matchTextToScript] of the render in which the effect ran, so the
    [words] and the [currentWordIndex] it reads are those of that
    render.  A later [setCurrentWordIndex] re-renders the component but
    does not re-run the effect. *)

Inductive Mode : Type := Volume | Smart.

Record Closure : Type := mkClosure {
  seenWords : list string;
  seenIndex : nat
}.

Record State : Type := mkState {
  text : string;
  mode : Mode;
  isListening : bool;
  currentWordIndex : nat;
  onresult : option Closure   (* the handler of the running recognition *)
}.

(** The effect body, run after a render whose dependencies changed, on
    a platform that has speech recognition. *)
Definition runEffect (st : State) : State :=
  match mode st, isListening st with
  | Smart, true =>
      mkState (text st) (mode st) (isListening st) (currentWordIndex st)
              (Some (mkClosure (words (text st)) (currentWordIndex st)))
  | _, _ =>
      mkState (text st) (mode st) (isListening st) (currentWordIndex st)
              None
  end.

(** [onChange={(e) => setText(e.target.value)}] of the editor. *)
Definition setText (value : string) (st : State) : State :=
  if (text st =? value)%string then st
  else runEffect (mkState value (mode st) (isListening st)
                          (currentWordIndex st) (onresult st)).

(** [onClick={() => setIsListening(!isListening)}] *)
Definition toggleListening (st : State) : State :=
  runEffect (mkState (text st) (mode st) (negb (isListening st))
                     (currentWordIndex st) (onresult st)).

(** One transcript accepted by [onresult] (final, or confidence above
    0.6): it is lower-cased, trimmed and matched. *)
Definition transcriptUpdate (raw : string) (st : State) : State :=
  match onresult st with
  | None => st
  | Some h =>
      match matchTextToScript (seenWords h) (seenIndex h)
                              (JS.trim (JS.toLowerCase raw)) with
      | Some i => mkState (text st) (mode st) (isListening st) i
                          (onresult st)
      | None => st
      end
  end.

(** The component as mounted: smart mode, not listening, cursor 0. *)
Definition mount (script : string) : State :=
  mkState script Smart false 0 None.

(** *** analyze: the volume detector *)

(** [sum / bufferLength] over the byte frequency data. *)
Definition average (dataArray : list Z) : Q :=
  inject_Z (fold_left Z.add dataArray 0)
  / inject_Z (Z.of_nat (List.length dataArray)).

(** [55 - (sensitivity * 0.4)] *)
Definition threshold (sensitivity : Z) : Q :=
  55 - inject_Z sensitivity * 0.4.

(** [voiceActive], the ref [silenceTimerRef.current] (a timer id or
    null), and the browser's side of [setTimeout]: the timeouts still
    pending, each with the time it is due, and the next id. *)
Record Detector : Type := mkDetector {
  voiceActive : bool;
  silenceTimerRef : option nat;
  pending : list (nat * Z);
  nextId : nat
}.

Definition clearTimeout (id : nat) (ts : list (nat * Z)) : list (nat * Z) :=
  List.filter (fun t => negb (fst t =? id)%nat) ts.

(** The body of [analyze] for the frame read at time [now].  The effect
    that defines [analyze] lists [sensitivity] and [voiceActive] among
    its dependencies, so each frame reads their current values. *)
Definition analyze (sensitivity : Z) (now : Z) (avg : Q) (g : Detector) : Detector :=
  if Qgtb avg (threshold sensitivity) then
    match silenceTimerRef g with
    | Some id => mkDetector true None (clearTimeout id (pending g)) (nextId g)
    | None => mkDetector true None (pending g) (nextId g)
    end
  else
    match silenceTimerRef g with
    | None =>
        if voiceActive g
        then mkDetector (voiceActive g) (Some (nextId g))
                    ((nextId g, now + 600) :: pending g) (S (nextId g))
        else g
    | Some _ => g
    end.

(** The callback of the timeout [id]: [setVoiceActive(false)].  It
    leaves the ref as it is. *)
Definition timeoutFires (id : nat) (g : Detector) : Detector :=
  mkDetector false (silenceTimerRef g) (clearTimeout id (pending g)) (nextId g).

Definition dueTime (id : nat) (ts : list (nat * Z)) : option Z :=
  snd <$> List.find (fun t => (fst t =? id)%nat) ts.

Inductive Event : Type :=
| Frame (now : Z) (avg : Q)
| Timeout (now : Z) (id : nat).

Definition timeOf (e : Event) : Z :=
  match e with Frame now _ => now | Timeout now _ => now end.

(** A timeout runs only if it is pending and due. *)
Definition step (sensitivity : Z) (g : Detector) (e : Event) : option Detector :=
  match e with
  | Frame now avg => Some (analyze sensitivity now avg g)
  | Timeout now id =>
      match dueTime id (pending g) with
      | Some due => if due <=? now then Some (timeoutFires id g) else None
      | None => None
      end
  end.

Inductive Edge : Type := Rising (t : Z) | Falling (t : Z).

Definition edgeAt (t : Z) (before after : bool) : list Edge :=
  match before, after with
  | false, true => [Rising t]
  | true, false => [Falling t]
  | _, _ => []
  end.

(** Running a list of events from time [clock]: the edges of
    [voiceActive] and the final state; [None] when the events are not
    in time order or a timeout is not due. *)
Fixpoint exec (sensitivity : Z) (clock : Z) (g : Detector) (evs : list Event)
  : option (list Edge * Detector) :=
  match evs with
  | [] => Some ([], g)
  | e :: evs' =>
      if clock <=? timeOf e then
        match step sensitivity g e with
        | Some g' =>
            match exec sensitivity (timeOf e) g' evs' with
            | Some (es, fin) =>
                Some (edgeAt (timeOf e) (voiceActive g) (voiceActive g')
                        ++ es, fin)
            | None => None
            end
        | None => None
        end
      else None
  end.

(** The time of the last event of a run that starts at [clock]. *)
Fixpoint clockAfter (clock : Z) (evs : list Event) : Z :=
  match evs with
  | [] => clock
  | e :: evs' => clockAfter (timeOf e) evs'
  end.

Definition idle : Detector := mkDetector false None [] 0.

Definition isAbove (sensitivity : Z) (e : Event) : bool :=
  match e with
  | Frame _ avg => Qgtb avg (threshold sensitivity)
  | Timeout _ _ => false
  end.

Definition isTimeout (e : Event) : bool :=
  match e with Timeout _ _ => true | Frame _ _ => false end.

(** The states the detector moves through from [idle]: no timeout is
    pending and an active detector has a clear ref, or exactly one timeout is
    pending, the ref holds its id and the detector is active. *)
Definition settled (g : Detector) : Prop :=
  (pending g = [] /\ (voiceActive g = true -> silenceTimerRef g = None))
  \/ (exists id due,
        pending g = [(id, due)]
        /\ silenceTimerRef g = Some id
        /\ voiceActive g = true).


(** *** recognition.onresult *)

(** [event.results[i]]: its flag and the first alternative. *)
Record Result : Type := mkResult {
  isFinal : bool;
  confidence : Q;
  transcript : string
}.

(** [event.results[i].isFinal || event.results[i][0].confidence > 0.6] *)
Definition accepted (r : Result) : bool :=
  isFinal r || Qgtb (confidence r) 0.6.

(** The indicator part of [onresult], at time [now]:
    [setVoiceActive(true)], [clearTimeout] of the ref when it is set,
    and a new timeout of 1000 ms stored in the ref. *)
Definition onresultIndicator (now : Z) (g : Detector) : Detector :=
  mkDetector true (Some (nextId g))
             ((nextId g, now + 1000)
                :: match silenceTimerRef g with
                   | Some id => clearTimeout id (pending g)
                   | None => pending g
                   end)
             (S (nextId g)).

(** The word spans of the script view: [isSpoken] and [isCurrent] of
    the word at index [i]. *)
Definition isSpoken (m : Mode) (cursor i : nat) : bool :=
  (i <? cursor)%nat && match m with Smart => true | Volume => false end.

Definition isCurrent (m : Mode) (cursor i : nat) : bool :=
  (i =? cursor)%nat && match m with Smart => true | Volume => false end.

(** [formatTime(seconds)], the same function in ControlPanel and in
    Teleprompter: [Math.floor(seconds / 60)] and [seconds % 60], each
    printed with [padStart(2, '0')]. *)
Definition formatTime (seconds : Z) : string :=
  (JS.pad2 (seconds / 60) ++ ":" ++ JS.pad2 (Z.rem seconds 60))%string.

End Teleprompter.

(* ================================================================== *)
(** ** Teleprompter: every recognition the effect creates

    [recognition.onend] restarts the recognition it belongs to whenever
    that recognition ends, because the [isListening] it reads is the one
    of the render whose effect created it, which is true.  The [stop()]
    of the effect's cleanup, or of a later run of the effect, therefore
    ends a recognition only until its [onend] starts it again: a
    recognition, once created, can deliver results for as long as the
    component is mounted.  The component below keeps the handler of
    every recognition created so far, and a result event names the
    recognition that delivers it. *)

Module SmartTracking.
Import Teleprompter.

Record Component : Type := mkComponent {
  text : string;
  mode : Mode;
  isListening : bool;
  currentWordIndex : nat;
  recognitions : list Closure   (* the handlers, oldest first *)
}.

(** The loop of [onresult] over [event.results] from
    [event.resultIndex] on, in the recognition whose handler is [h]:
    each accepted result calls the [matchTextToScript] of the render
    that built [h], and a match is a [setCurrentWordIndex(i)].  The
    result is [currentWordIndex] after the event. *)
Definition onresultLoop (h : Closure) (resultIndex : nat)
           (results : list Result) (cursor : nat) : nat :=
  fold_left (fun cur r =>
               if accepted r
               then default cur
                      (matchTextToScript (seenWords h) (seenIndex h)
                         (JS.trim (JS.toLowerCase (transcript r))))
               else cur)
            (drop resultIndex results) cursor.

(** The effect with the dependencies [[mode, isListening, words]], run
    after a render in which one of them changed, on a platform that has
    speech recognition: in smart mode while listening it creates a
    recognition whose handler closes over the [words] and the
    [currentWordIndex] of that render. *)
Definition effect (c : Component) : Component :=
  match mode c, isListening c with
  | Smart, true =>
      mkComponent (text c) (mode c) (isListening c) (currentWordIndex c)
                  (recognitions c
                     ++ [mkClosure (words (text c)) (currentWordIndex c)])
  | _, _ => c
  end.

Definition sameMode (a b : Mode) : bool :=
  match a, b with
  | Smart, Smart | Volume, Volume => true
  | _, _ => false
  end.

(** What can happen to the mounted component: the editor's [onChange],
    the listening button, the two mode buttons, and an [onresult] event
    of the recognition created [k]-th. *)
Inductive Input : Type :=
| Edit (value : string)
| ToggleListening
| SetMode (m : Mode)
| Results (k resultIndex : nat) (results : list Result).

(** A state setter called with the value the state already has causes
    no render, so no effect. *)
Definition input (c : Component) (i : Input) : Component :=
  match i with
  | Edit value =>
      if (text c =? value)%string then c
      else effect (mkComponent value (mode c) (isListening c)
                               (currentWordIndex c) (recognitions c))
  | ToggleListening =>
      effect (mkComponent (text c) (mode c) (negb (isListening c))
                          (currentWordIndex c) (recognitions c))
  | SetMode m =>
      if sameMode (mode c) m then c
      else effect (mkComponent (text c) m (isListening c)
                               (currentWordIndex c) (recognitions c))
  | Results k resultIndex results =>
      match recognitions c !! k with
      | Some h =>
          mkComponent (text c) (mode c) (isListening c)
                      (onresultLoop h resultIndex results (currentWordIndex c))
                      (recognitions c)
      | None => c
      end
  end.

(** The component as mounted: smart mode, not listening, cursor 0, no
    recognition yet. *)
Definition mount (script : string) : Component :=
  mkComponent script Smart false 0 [].

Definition run (inputs : list Input) (c : Component) : Component :=
  fold_left input inputs c.

End SmartTracking.

(* ================================================================== *)
(** ** AudioMonitor: the double-clap detector of [draw] *)

Module AudioMonitor.

(** [x = (dataArray[i] - 128) / 128.0] *)
Definition sample (d : Z) : Q := (inject_Z d - 128) / 128.

(** [if (absX > peak) peak = absX], folded over the buffer. *)
Definition peakOf (dataArray : list Z) : Q :=
  fold_left (fun peak d =>
               let absX := Qabs (sample d) in
               if Qgtb absX peak then absX else peak)
            dataArray 0%Q.

(** The clap section of [draw] for one frame read at [now]
    ([Date.now()], in milliseconds): the new value of
    [lastClapTimeRef.current] and whether [onTrigger] was called. *)
Definition detectClap (isAudioTriggerActive : bool) (peak : Q)
           (now lastClapTime : Z) : Z * bool :=
  if isAudioTriggerActive && Qgtb peak 0.6 then
    if 100 <? now - lastClapTime then
      if now - lastClapTime <? 800
      then (0, true)
      else (now, false)
    else (lastClapTime, false)
  else (lastClapTime, false).

(** Frames in sequence: the final timestamp and the number of calls
    of [onTrigger]. *)
Fixpoint claps (isAudioTriggerActive : bool) (frames : list (Z * Q))
         (lastClapTime : Z) : Z * nat :=
  match frames with
  | [] => (lastClapTime, O)
  | (now, peak) :: rest =>
      let '(t, fired) := detectClap isAudioTriggerActive peak now lastClapTime in
      let '(t', n) := claps isAudioTriggerActive rest t in
      (t', if fired then S n else n)
  end.


(** One point of [historyData]. *)
Record HistoryPoint : Type := mkPoint {
  time : Z;
  level : Q
}.

(** The updater of [setHistoryData]:
    [next = [...prev, item]; if (next.length > 50) next.shift()]. *)
Definition pushHistory (prev : list HistoryPoint) (item : HistoryPoint)
  : list HistoryPoint :=
  let next := (prev ++ [item])%list in
  if (50 <? List.length next)%nat then List.tl next else next.

(** What [enumerateDevices()] gives for a device. *)
Record MediaDeviceInfo : Type := mkInfo {
  info_kind : string;
  info_deviceId : string;
  info_label : string
}.

(** [interface AudioDevice] of types.ts. *)
Record AudioDevice : Type := mkAudioDevice {
  deviceId : string;
  label : string;
  isExternal : bool
}.

(** The four [d.label.toLowerCase().includes(...)] tests. *)
Definition looksExternal (lbl : string) : bool :=
  JS.includes (JS.toLowerCase lbl) "usb"
  || JS.includes (JS.toLowerCase lbl) "hollyland"
  || JS.includes (JS.toLowerCase lbl) "synco"
  || JS.includes (JS.toLowerCase lbl) "wireless".

(** The [map] callback of [updateDevices]; [d.label || ...] takes the
    placeholder when the label is empty. *)
Definition toAudioDevice (d : MediaDeviceInfo) : AudioDevice :=
  mkAudioDevice
    (info_deviceId d)
    (if (String.length (info_label d) =? 0)%nat
     then ("Microphone " ++ String.substring 0 5 (info_deviceId d) ++ "...")%string
     else info_label d)
    (looksExternal (info_label d)).

(** [devs.filter(d => d.kind === 'audioinput').map(...)] *)
Definition audioInputs (devs : list MediaDeviceInfo) : list AudioDevice :=
  List.map toAudioDevice
           (List.filter (fun d => (info_kind d =? "audioinput")%string) devs).


(** Whether a clap is stored in [lastClapTimeRef] (0 stands for none),
    and the frames of a sequence whose peak is above the threshold. *)
Definition armed (lastClapTime : Z) : nat :=
  if lastClapTime =? 0 then 0%nat else 1%nat.

Definition loudFrames (frames : list (Z * Q)) : nat :=
  List.length (List.filter (fun f => Qgtb (snd f) 0.6) frames).

End AudioMonitor.

(* ================================================================== *)
(** ** App: shot list and recorder callbacks *)

Module App.

Local Open Scope string_scope.

Record Shot : Type := mkShot {
  id : string;
  name : string;
  completed : bool;
  take : Z
}.

(** The fields of [new Date()] the file name reads; [month] is
    [getMonth()], from 0. *)
Record Date : Type := mkDate {
  fullYear : Z;
  month : Z;
  date : Z;
  hours : Z;
  minutes : Z
}.

(** A date of the calendar with a four-digit year. *)
Definition dateInRange (now : Date) : bool :=
  (1000 <=? fullYear now)%Z && (fullYear now <=? 9999)%Z
  && (0 <=? month now)%Z && (month now <=? 11)%Z
  && (1 <=? date now)%Z && (date now <=? 31)%Z
  && (0 <=? hours now)%Z && (hours now <=? 23)%Z
  && (0 <=? minutes now)%Z && (minutes now <=? 59)%Z.

Definition timestamp (now : Date) : string :=
  JS.numberToString (fullYear now) ++ JS.pad2 (month now + 1)
    ++ JS.pad2 (date now) ++ "_" ++ JS.pad2 (hours now)
    ++ JS.pad2 (minutes now).

(** [shots.find(s => s.id === activeShotId)]; [activeShotId] may be
    null, which no id equals. *)
Definition findShot (shots : list Shot) (activeShotId : option string)
  : option Shot :=
  match activeShotId with
  | Some a => List.find (fun s => id s =? a) shots
  | None => None
  end.

Definition shotFilename (activeShot : Shot) : string :=
  JS.underscoreRuns (name activeShot)
    ++ "_Take" ++ JS.numberToString (take activeShot).

(** [prev.map(s => s.id === activeShot.id ? {...s, take: s.take + 1} : s)] *)
Definition bumpTake (activeId : string) (prev : list Shot) : list Shot :=
  List.map (fun s => if id s =? activeId
                     then mkShot (id s) (name s) (completed s) (take s + 1)%Z
                     else s)
           prev.

(** The naming part of [recorder.onstop].  [shots] and [activeShotId]
    are the variables of the closure (the render whose
    [startRecording] built the recorder); [prev] is the state
    [setShots] updates.  The result is [filename] and the new list. *)
Definition onstopNaming (shots : list Shot) (activeShotId : option string)
           (now : Date) (prev : list Shot) : string * list Shot :=
  match findShot shots activeShotId with
  | Some activeShot =>
      (shotFilename activeShot, bumpTake (id activeShot) prev)
  | None => ("A6000_REC" ++ "_" ++ timestamp now, prev)
  end.

Inductive RecordingState : Type := Inactive | Recording | Paused.

(** A [MediaRecorder] with what its [onstop] closed over. *)
Record Recorder : Type := mkRecorder {
  recState : RecordingState;
  seenShots : list Shot;
  seenActiveShotId : option string;
  mimeType : string
}.

Record State : Type := mkState {
  shots : list Shot;
  activeShotId : option string;
  videoStream : bool;              (* is there a stream *)
  audioStream : bool;
  isRecording : bool;
  mediaRecorderRef : option Recorder;
  recordingTimerRef : option nat;  (* the id of the duration interval *)
  intervals : list nat;            (* intervals still running *)
  nextInterval : nat;
  alerts : list string;            (* [alert(...)]: shown to the user *)
  consoleErrors : list string;     (* [console.error(...)] *)
  downloads : list string          (* [a.download] of each saved file *)
}.

(** [handleAddShot(name)]; [stamp] is [Date.now().toString()]. *)
Definition handleAddShot (stamp nm : string) (st : State) : State :=
  let newShot := mkShot stamp nm false 1 in
  mkState (shots st ++ [newShot])
          (match activeShotId st with
           | Some a => if (String.length a =? 0)%nat then Some stamp else Some a
           | None => Some stamp
           end)
          (videoStream st) (audioStream st) (isRecording st)
          (mediaRecorderRef st) (recordingTimerRef st) (intervals st)
          (nextInterval st) (alerts st) (consoleErrors st) (downloads st).

(** [onSelectShot = setActiveShotId] *)
Definition selectShot (i : string) (st : State) : State :=
  mkState (shots st) (Some i)
          (videoStream st) (audioStream st) (isRecording st)
          (mediaRecorderRef st) (recordingTimerRef st) (intervals st)
          (nextInterval st) (alerts st) (consoleErrors st) (downloads st).

(** [type.includes('mp4') ? 'mp4' : 'webm'], [type = mimeType || 'video/webm'] *)
Definition extension (mime : string) : string :=
  let type := if (String.length mime =? 0)%nat then "video/webm" else mime in
  if JS.includes type "mp4" then "mp4" else "webm".

(** [recorder.onstop], run when the recorder stops. *)
Definition onstop (r : Recorder) (now : Date) (st : State) : State :=
  let '(filename, shots') :=
    onstopNaming (seenShots r) (seenActiveShotId r) now (shots st) in
  mkState shots' (activeShotId st)
          (videoStream st) (audioStream st) (isRecording st)
          (mediaRecorderRef st) (recordingTimerRef st) (intervals st)
          (nextInterval st) (alerts st) (consoleErrors st)
          (downloads st ++ [filename ++ "." ++ extension (mimeType r)]).

(** [clearInterval(t)] on the running intervals. *)
Definition clearInterval (t : nat) (running : list nat) : list nat :=
  List.filter (fun i => negb (i =? t)%nat) running.

(** The intervals left when the duration interval is cancelled. *)
Definition stoppedTimers (st : State) : list nat :=
  match recordingTimerRef st with
  | Some t => clearInterval t (intervals st)
  | None => intervals st
  end.

(** [startRecording()], for a platform whose encoder starts; [mime] is
    what [getSupportedMimeType()] returned. *)
Definition startRecording (mime : string) (st : State) : State :=
  if negb (videoStream st) && negb (audioStream st) then
    mkState (shots st) (activeShotId st)
            (videoStream st) (audioStream st) (isRecording st)
            (mediaRecorderRef st) (recordingTimerRef st) (intervals st)
            (nextInterval st)
            (alerts st ++ ["No source detected. Cannot record."])
            (consoleErrors st) (downloads st)
  else
    let running := stoppedTimers st in
    mkState (shots st) (activeShotId st)
            (videoStream st) (audioStream st) true
            (Some (mkRecorder Recording (shots st) (activeShotId st) mime))
            (Some (nextInterval st)) (nextInterval st :: running)
            (S (nextInterval st))
            (alerts st) (consoleErrors st) (downloads st).

(** [stopRecording()]; a recorder that is not inactive is stopped and
    its [onstop] runs. *)
Definition stopRecording (now : Date) (st : State) : State :=
  let st1 :=
    match mediaRecorderRef st with
    | Some r =>
        match recState r with
        | Inactive => st
        | _ =>
            onstop r now
              (mkState (shots st) (activeShotId st)
                 (videoStream st) (audioStream st) (isRecording st)
                 (Some (mkRecorder Inactive (seenShots r)
                          (seenActiveShotId r) (mimeType r)))
                 (recordingTimerRef st) (intervals st) (nextInterval st)
                 (alerts st) (consoleErrors st) (downloads st))
        end
    | None => st
    end in
  mkState (shots st1) (activeShotId st1)
          (videoStream st1) (audioStream st1) false
          (mediaRecorderRef st1)
          None
          (stoppedTimers st1)
          (nextInterval st1) (alerts st1) (consoleErrors st1) (downloads st1).

(** [handleToggleRecord()]: the button. *)
Definition handleToggleRecord (mime : string) (now : Date) (st : State)
  : State :=
  if isRecording st then stopRecording now st else startRecording mime st.

(** [recorder.onerror]: [console.error("Recorder error:", event);
    stopRecording();] *)
Definition onerror (now : Date) (st : State) : State :=
  stopRecording now
    (mkState (shots st) (activeShotId st)
       (videoStream st) (audioStream st) (isRecording st)
       (mediaRecorderRef st) (recordingTimerRef st) (intervals st)
       (nextInterval st) (alerts st)
       (consoleErrors st ++ ["Recorder error:"]) (downloads st)).

Definition initial : State :=
  mkState [] None false false false None None [] 0 [] [] [].


(** [handleDeleteShot(id)] *)
Definition handleDeleteShot (i : string) (st : State) : State :=
  mkState (List.filter (fun s => negb (id s =? i)) (shots st))
          (match activeShotId st with
           | Some a => if a =? i then None else Some a
           | None => None
           end)
          (videoStream st) (audioStream st) (isRecording st)
          (mediaRecorderRef st) (recordingTimerRef st) (intervals st)
          (nextInterval st) (alerts st) (consoleErrors st) (downloads st).

(** [handleToggleShotComplete(id)] *)
Definition handleToggleShotComplete (i : string) (st : State) : State :=
  mkState (List.map (fun s => if id s =? i
                              then mkShot (id s) (name s) (negb (completed s))
                                          (take s)
                              else s)
                    (shots st))
          (activeShotId st)
          (videoStream st) (audioStream st) (isRecording st)
          (mediaRecorderRef st) (recordingTimerRef st) (intervals st)
          (nextInterval st) (alerts st) (consoleErrors st) (downloads st).

(** The preference list of [getSupportedMimeType]. *)
Definition mimeTypes : list string :=
  ["video/webm;codecs=vp9,opus"; "video/webm;codecs=vp8,opus";
   "video/webm"; "video/mp4"].

(** [getSupportedMimeType()]; [isTypeSupported] is the platform's
    [MediaRecorder.isTypeSupported]. *)
Definition getSupportedMimeType (isTypeSupported : string -> bool) : string :=
  match List.find isTypeSupported mimeTypes with
  | Some type => type
  | None => ""
  end.


(** *** The handlers as events

    What the user and the recorder can do to the state: the callbacks
    of the shot list, the record button (and the clap trigger, which
    calls the same [handleToggleRecord]), and the recorder's error
    event, which only a recorder that exists can raise. *)
Inductive Action : Type :=
| AddShot (stamp nm : string)
| DeleteShot (i : string)
| ToggleShotComplete (i : string)
| SelectShot (i : string)
| ToggleRecord (mime : string) (now : Date)
| RecorderError (now : Date).

Definition act (st : State) (a : Action) : State :=
  match a with
  | AddShot stamp nm => handleAddShot stamp nm st
  | DeleteShot i => handleDeleteShot i st
  | ToggleShotComplete i => handleToggleShotComplete i st
  | SelectShot i => selectShot i st
  | ToggleRecord mime now => handleToggleRecord mime now st
  | RecorderError now =>
      match mediaRecorderRef st with
      | Some _ => onerror now st
      | None => st
      end
  end.

Definition run (actions : list Action) (st : State) : State :=
  fold_left act actions st.

(** The recorder of the ref is recording or paused. *)
Definition recorderLive (st : State) : bool :=
  match mediaRecorderRef st with
  | Some r => match recState r with Inactive => false | _ => true end
  | None => false
  end.

(** The flag, the duration interval and the recorder agree: while
    recording, the ref holds the one running interval and the recorder
    is live; otherwise no interval runs and no recorder is live. *)
Definition recordingConsistent (st : State) : bool :=
  if isRecording st then
    match recordingTimerRef st, intervals st with
    | Some t, [t'] => (t' =? t)%nat && recorderLive st
    | _, _ => false
    end
  else
    match recordingTimerRef st, intervals st with
    | None, [] => negb (recorderLive st)
    | _, _ => false
    end.

Definition listed (i : string) (l : list Shot) : bool :=
  List.existsb (fun s => id s =? i) l.

(** [activeShotId] is null or the id of a shot of the list. *)
Definition activeListed (st : State) : bool :=
  match activeShotId st with
  | Some a => listed a (shots st)
  | None => true
  end.

(** The list shows the shots it has: only a listed shot can be
    clicked. *)
Definition allowed (st : State) (a : Action) : bool :=
  match a with
  | SelectShot i => listed i (shots st)
  | _ => true
  end.

Fixpoint valid (st : State) (actions : list Action) : bool :=
  match actions with
  | [] => true
  | a :: rest => allowed st a && valid (act st a) rest
  end.

(** Pressing the record button twice, at [now] the second time. *)
Definition recordTake (mime : string) (now : Date) : list Action :=
  [ToggleRecord mime now; ToggleRecord mime now].

End App.

(* ================================================================== *)
(** ** ShotList: the form that adds a shot *)

Module ShotList.

(** [handleSubmit]: [if (newShotName.trim())
    onAddShot(newShotName.trim())]; [stamp] is the id [handleAddShot]
    takes from the clock. *)
Definition handleSubmit (stamp newShotName : string) (st : App.State)
  : App.State :=
  if (0 <? String.length (JS.trim newShotName))%nat
  then App.handleAddShot stamp (JS.trim newShotName) st
  else st.

End ShotList.

(* ================================================================== *)
(** * Properties *)

(** ** Comparisons *)

Lemma Qgtb_lt (x y : Q) : Qgtb x y = true <-> (y < x)%Q.
Proof.
unfold Qgtb. rewrite negb_true_iff, <- not_true_iff_false, Qle_bool_iff.
split; [apply Qnot_le_lt | apply Qlt_not_le].
Qed.

Lemma Qgtb_le (x y : Q) : Qgtb x y = false <-> (x <= y)%Q.
Proof.
unfold Qgtb. rewrite negb_false_iff. apply Qle_bool_iff.
Qed.

(** [g > r * 1.5] on integers is [2 * g > 3 * r]. *)
Lemma Qgtb_three_halves (g r : Z) :
Qgtb (inject_Z g) (inject_Z r * 1.5) = (3 * r <? 2 * g).
Proof.
apply eq_true_iff_eq. rewrite Qgtb_lt, Z.ltb_lt.
unfold Qlt, Qmult, inject_Z; simpl. lia.
Qed.

(* ------------------------------------------------------------------ *)
(** ** The aspect-guide toggle *)

Section GuideToggle.
Import ControlPanel.

(** C10: the toggle steps none -> 9:16 -> 4:5 -> 1:1 -> none, so four
    toggles bring every guide back to itself. *)
Theorem toggleGuide_cycle :
  toggleGuide GuideNone = Guide9x16
  /\ toggleGuide Guide9x16 = Guide4x5
  /\ toggleGuide Guide4x5 = Guide1x1
  /\ toggleGuide Guide1x1 = GuideNone
  /\ forall g : AspectRatioGuide,
       toggleGuide (toggleGuide (toggleGuide (toggleGuide g))) = g.
Proof.
  repeat split. intros g. destruct g; reflexivity.
Qed.

(** Fewer than four toggles never come back. *)
Lemma toggleGuide_period (g : AspectRatioGuide) :
  toggleGuide g <> g
  /\ toggleGuide (toggleGuide g) <> g
  /\ toggleGuide (toggleGuide (toggleGuide g)) <> g.
Proof. destruct g; repeat split; discriminate. Qed.

End GuideToggle.

(* ------------------------------------------------------------------ *)
(** ** The chroma-key pass *)

Section ChromaKey.
Import LiveView.

Lemma greenDominant_iff (r g b : Z) :
  greenDominant r g b = true
  <-> 100 < g
      /\ (1.5 * inject_Z r < inject_Z g)%Q
      /\ (1.5 * inject_Z b < inject_Z g)%Q.
Proof.
  unfold greenDominant.
  rewrite !andb_true_iff, Z.ltb_lt, !Qgtb_lt.
  rewrite (Qmult_comm (inject_Z r)), (Qmult_comm (inject_Z b)). tauto.
Qed.

Lemma keyPixel_length (i : nat) (data : ImageData) :
  List.length (keyPixel i data) = List.length data.
Proof.
  unfold keyPixel. cbv zeta.
  destruct (greenDominant _ _ _); [apply length_insert | reflexivity].
Qed.

Lemma keyPixel_other (i k : nat) (data : ImageData) :
  k <> (i * 4 + 3)%nat -> keyPixel i data !! k = data !! k.
Proof.
  intros Hk. unfold keyPixel. cbv zeta.
  destruct (greenDominant _ _ _); [| reflexivity].
  apply list_lookup_insert_ne. congruence.
Qed.

Lemma keyPixel_alpha (i : nat) (data : ImageData) :
  (i * 4 + 3 < List.length data)%nat ->
  keyPixel i data !! (i * 4 + 3)%nat
  = Some (if greenDominant (rd data (i * 4 + 0)) (rd data (i * 4 + 1))
                           (rd data (i * 4 + 2))
          then 0 else rd data (i * 4 + 3)).
Proof.
  intros Hlt. unfold keyPixel. cbv zeta.
  destruct (greenDominant _ _ _).
  - apply list_lookup_insert_eq. exact Hlt.
  - unfold rd. destruct (lookup_lt_is_Some_2 data _ Hlt) as [a Ha].
    rewrite Ha. reflexivity.
Qed.

Lemma keyLoop_length (n i : nat) (data : ImageData) :
  List.length (keyLoop n i data) = List.length data.
Proof.
  revert i data. induction n as [| n IH]; intros i data; simpl.
  - reflexivity.
  - rewrite IH. apply keyPixel_length.
Qed.

(** The loop writes alpha entries of the pixels it visits, nothing else. *)
Lemma keyLoop_other (n i k : nat) (data : ImageData) :
  (forall j, (i <= j < i + n)%nat -> k <> (j * 4 + 3)%nat) ->
  keyLoop n i data !! k = data !! k.
Proof.
  revert i data. induction n as [| n IH]; intros i data Hk; simpl.
  - reflexivity.
  - rewrite IH.
    + apply keyPixel_other. apply Hk. lia.
    + intros j Hj. apply Hk. lia.
Qed.

Lemma keyLoop_alpha (n i j : nat) (data : ImageData) :
  (i <= j < i + n)%nat ->
  (j * 4 + 3 < List.length data)%nat ->
  keyLoop n i data !! (j * 4 + 3)%nat
  = Some (if greenDominant (rd data (j * 4 + 0)) (rd data (j * 4 + 1))
                           (rd data (j * 4 + 2))
          then 0 else rd data (j * 4 + 3)).
Proof.
  revert i data. induction n as [| n IH]; intros i data Hj Hlen; simpl.
  - lia.
  - destruct (decide (j = i)) as [-> | Hne].
    + rewrite keyLoop_other by (intros j' Hj'; lia).
      apply keyPixel_alpha. exact Hlen.
    + rewrite IH by (rewrite ?keyPixel_length; lia).
      unfold rd. rewrite !keyPixel_other by lia. reflexivity.
Qed.

(** C7: on a buffer of [n] pixels the pass keeps the length and the
    red, green and blue entries of every pixel, and the alpha entry
    becomes 0 when [g > 100], [g > 1.5 r] and [g > 1.5 b] and is left
    as it was otherwise; (10,200,10) is keyed out, (150,160,150) is
    not. *)
Theorem chromaKey_pixelwise (data : ImageData) (n : nat) :
  List.length data = (4 * n)%nat ->
  List.length (chromaKey data) = List.length data
  /\ (forall (i : nat) (r g b a : Z),
        (i < n)%nat ->
        data !! (i * 4 + 0)%nat = Some r ->
        data !! (i * 4 + 1)%nat = Some g ->
        data !! (i * 4 + 2)%nat = Some b ->
        data !! (i * 4 + 3)%nat = Some a ->
        chromaKey data !! (i * 4 + 0)%nat = Some r
        /\ chromaKey data !! (i * 4 + 1)%nat = Some g
        /\ chromaKey data !! (i * 4 + 2)%nat = Some b
        /\ (100 < g /\ (1.5 * inject_Z r < inject_Z g)%Q
                    /\ (1.5 * inject_Z b < inject_Z g)%Q ->
            chromaKey data !! (i * 4 + 3)%nat = Some 0)
        /\ (~ (100 < g /\ (1.5 * inject_Z r < inject_Z g)%Q
                       /\ (1.5 * inject_Z b < inject_Z g)%Q) ->
            chromaKey data !! (i * 4 + 3)%nat = Some a))
  /\ chromaKey [10; 200; 10; 255] = [10; 200; 10; 0]
  /\ chromaKey [150; 160; 150; 255] = [150; 160; 150; 255].
Proof.
  intros Hlen. split; [apply keyLoop_length |].
  split; [| split; reflexivity].
  intros i r g b a Hi Hr Hg Hb Ha.
  assert (Hn : (List.length data / 4 = n)%nat).
  { rewrite Hlen, Nat.mul_comm. apply Nat.div_mul. lia. }
  unfold chromaKey. rewrite Hn.
  rewrite !keyLoop_other by (intros j Hj; lia).
  rewrite keyLoop_alpha by lia.
  unfold rd. rewrite Hr, Hg, Hb, Ha. simpl.
  repeat split; try assumption.
  - intros Hc. apply greenDominant_iff in Hc. rewrite Hc. reflexivity.
  - intros Hc. destruct (greenDominant r g b) eqn:E; [| reflexivity].
    apply greenDominant_iff in E. contradiction.
Qed.

Lemma chromaKey_pixelwise_witness :
  List.length (chromaKey [10; 200; 10; 255; 150; 160; 150; 255]) = 8%nat
  /\ chromaKey [10; 200; 10; 255; 150; 160; 150; 255] !! 3%nat = Some 0
  /\ chromaKey [10; 200; 10; 255; 150; 160; 150; 255] !! 7%nat = Some 255.
Proof.
  destruct (chromaKey_pixelwise [10; 200; 10; 255; 150; 160; 150; 255] 2
              eq_refl) as [Hl [Hp _]].
  split; [exact Hl |]. split.
  - destruct (Hp 0%nat 10 200 10 255 ltac:(lia) eq_refl eq_refl eq_refl eq_refl)
      as (_ & _ & _ & Hkey & _).
    apply Hkey. repeat split; reflexivity.
  - destruct (Hp 1%nat 150 160 150 255 ltac:(lia) eq_refl eq_refl eq_refl eq_refl)
      as (_ & _ & _ & _ & Hkeep).
    apply Hkeep. intros (_ & H & _). revert H. unfold Qlt; simpl. lia.
Defined.

End ChromaKey.

(* ------------------------------------------------------------------ *)
(** ** Strings *)

Section StringFacts.
Import JS.
Local Open Scope string_scope.

Lemma append_empty_r (s : string) : s ++ "" = s.
Proof. induction s as [| c s IH]; simpl; [reflexivity | now rewrite IH]. Qed.

Lemma append_assoc (s t u : string) : (s ++ t) ++ u = s ++ (t ++ u).
Proof. induction s as [| c s IH]; simpl; [reflexivity | now rewrite IH]. Qed.

Lemma append_snoc (s t : string) (c : ascii) :
  (s ++ String c "") ++ t = s ++ String c t.
Proof. now rewrite append_assoc. Qed.

Lemma everyChar_snoc (p : ascii -> bool) (s : string) (c : ascii) :
  everyChar p (s ++ String c "") = everyChar p s && p c.
Proof.
  induction s as [| a s IH]; simpl.
  - now rewrite andb_true_r.
  - now rewrite IH, andb_assoc.
Qed.

Lemma startsWith_iff (s p : string) :
  startsWith s p = true <-> exists rest, s = p ++ rest.
Proof.
  revert s. induction p as [| a p IH]; intros s; simpl.
  - split; [intros _; now exists s | intros _; destruct s; reflexivity].
  - destruct s as [| b s]; simpl.
    + split; [discriminate | intros [rest H]; discriminate].
    + rewrite andb_true_iff, Ascii.eqb_eq, IH. split.
      * intros [-> [rest ->]]. now exists rest.
      * intros [rest H]. injection H as -> ->. split; [reflexivity | now exists rest].
Qed.

(** [includes] is the substring test. *)
Lemma includes_iff (hay needle : string) :
  includes hay needle = true
  <-> exists pre post, hay = pre ++ needle ++ post.
Proof.
  induction hay as [| c hay IH].
  - cbn [includes]. rewrite orb_false_r, startsWith_iff. split.
    + intros [rest H]. now exists "", rest.
    + intros [pre [post H]]. destruct pre; [now exists post | discriminate].
  - cbn [includes]. rewrite orb_true_iff, startsWith_iff, IH. split.
    + intros [[rest H] | [pre [post H]]].
      * now exists "", rest.
      * exists (String c pre), post. simpl. now rewrite H.
    + intros [pre [post H]]. destruct pre as [| a pre].
      * left. now exists post.
      * right. simpl in H. injection H as _ H. now exists pre, post.
Qed.

Lemma fieldsBy_nonempty (sep : ascii -> bool) (cur s : string) :
  fieldsBy sep cur s <> [].
Proof.
  revert cur. induction s as [| c s IH]; intros cur; simpl.
  - discriminate.
  - destruct (sep c); [discriminate | apply IH].
Qed.

Lemma last_cons_nonempty {A : Type} (x d : A) (l : list A) :
  l <> [] -> List.last (x :: l) d = List.last l d.
Proof. destruct l; [congruence | reflexivity]. Qed.

(** The last field: what follows the last separator. *)
Lemma fieldsBy_last (sep : ascii -> bool) (cur s : string) :
  everyChar (fun c => negb (sep c)) cur = true ->
  exists pre,
    cur ++ s = pre ++ List.last (fieldsBy sep cur s) ""
    /\ everyChar (fun c => negb (sep c)) (List.last (fieldsBy sep cur s) "") = true
    /\ (pre = "" \/ exists pre' c, sep c = true /\ pre = pre' ++ String c "").
Proof.
  revert cur. induction s as [| c s IH]; intros cur Hcur; simpl.
  - exists "". rewrite append_empty_r. auto.
  - destruct (sep c) eqn:Hc.
    + rewrite last_cons_nonempty by apply fieldsBy_nonempty.
      destruct (IH "" eq_refl) as (pre & Heq & Hlast & Hpre).
      simpl in Heq.
      exists (cur ++ String c pre). split; [| split].
      * rewrite append_assoc. simpl. now rewrite <- Heq.
      * exact Hlast.
      * right. destruct Hpre as [-> | (pre' & c' & Hc' & ->)].
        -- now exists cur, c.
        -- exists (cur ++ String c pre'), c'. split; [exact Hc' |].
           now rewrite append_assoc.
    + destruct (IH (cur ++ String c "")) as (pre & Heq & Hlast & Hpre).
      { rewrite everyChar_snoc, Hcur, Hc. reflexivity. }
      exists pre. rewrite append_snoc in Heq. auto.
Qed.

Lemma isBlank_space (c : ascii) : isBlank c = true -> c = " "%char.
Proof.
  unfold isBlank, code. intros H. apply Nat.eqb_eq in H.
  rewrite <- (ascii_nat_embedding c), H. reflexivity.
Qed.

End StringFacts.

(* ------------------------------------------------------------------ *)
(** ** The speech aligner *)

Section Aligner.
Import JS Teleprompter.
Local Open Scope string_scope.

(** The spoken word is the part of the transcript after its last blank. *)
Lemma lastSpokenWord_suffix (transcript : string) :
  exists pre,
    transcript = pre ++ lastSpokenWord transcript
    /\ everyChar (fun c => negb (isBlank c)) (lastSpokenWord transcript) = true
    /\ (pre = "" \/ exists pre', pre = pre' ++ " ").
Proof.
  destruct (fieldsBy_last isBlank "" transcript eq_refl)
    as (pre & Heq & Hlast & Hpre).
  exists pre. split; [exact Heq | split; [exact Hlast |]].
  destruct Hpre as [-> | (pre' & c & Hc & ->)]; [now left | right].
  exists pre'. now rewrite (isBlank_space c Hc).
Qed.

Lemma fuzzyMatch_iff (token spoken : string) :
  fuzzyMatch token spoken = true
  <-> stripPunctuation (toLowerCase token) = spoken
      \/ ((3 < String.length (stripPunctuation (toLowerCase token)))%nat
          /\ exists pre post,
               spoken = pre ++ stripPunctuation (toLowerCase token) ++ post).
Proof.
  unfold fuzzyMatch. cbv zeta.
  rewrite orb_true_iff, andb_true_iff, String.eqb_eq, Nat.ltb_lt, includes_iff.
  reflexivity.
Qed.

(** The loop stops at the first index whose token matches. *)
Lemma scan_Some (ws : list string) (spoken : string) (n i k : nat) :
  scan ws spoken n i = Some k
  <-> (i <= k < i + n)%nat
      /\ fuzzyMatch (default "" (ws !! k)) spoken = true
      /\ forall j, (i <= j < k)%nat ->
                   fuzzyMatch (default "" (ws !! j)) spoken = false.
Proof.
  revert i. induction n as [| n IH]; intros i; simpl.
  - split; [discriminate | intros [? _]; lia].
  - destruct (fuzzyMatch (default "" (ws !! i)) spoken) eqn:Hi.
    + split.
      * intros [= <-]. repeat split; [lia | lia | exact Hi | intros j ?; lia].
      * intros (Hk & _ & Hfirst). f_equal.
        destruct (decide (i = k)) as [-> | Hne]; [reflexivity |].
        rewrite Hfirst in Hi by lia. discriminate.
    + rewrite IH. split.
      * intros (Hk & Hm & Hfirst). repeat split; [lia | lia | exact Hm |].
        intros j Hj. destruct (decide (j = i)) as [-> | Hne]; [exact Hi |].
        apply Hfirst. lia.
      * intros (Hk & Hm & Hfirst).
        assert (k <> i) by (intros ->; congruence).
        repeat split; [lia | lia | exact Hm |].
        intros j Hj. apply Hfirst. lia.
Qed.

Lemma scan_None (ws : list string) (spoken : string) (n i : nat) :
  scan ws spoken n i = None
  <-> forall j, (i <= j < i + n)%nat ->
                fuzzyMatch (default "" (ws !! j)) spoken = false.
Proof.
  revert i. induction n as [| n IH]; intros i; simpl.
  - split; [intros _ j ?; lia | reflexivity].
  - destruct (fuzzyMatch (default "" (ws !! i)) spoken) eqn:Hi.
    + split; [discriminate |]. intros H. rewrite H in Hi by lia. discriminate.
    + rewrite IH. split.
      * intros H j Hj. destruct (decide (j = i)) as [-> | Hne]; [exact Hi |].
        apply H. lia.
      * intros H j Hj. apply H. lia.
Qed.

(** A match lies ahead of the index the call read, inside the window. *)
Lemma matchTextToScript_forward (ws : list string) (cur i : nat)
      (transcript : string) :
  matchTextToScript ws cur transcript = Some i ->
  (cur <= i < cur + 50)%nat /\ (i < List.length ws)%nat.
Proof.
  unfold matchTextToScript. cbv zeta. rewrite scan_Some.
  unfold searchWindow. intros (Hi & _ & _). lia.
Qed.

Lemma in_window_lookup (ws : list string) (cur j : nat) :
  (j < Nat.min (List.length ws) (cur + 50))%nat ->
  exists token, ws !! j = Some token.
Proof.
  intros Hj. apply lookup_lt_is_Some_2. lia.
Qed.

(** What the normalization of a script token does, character by
    character. *)
Lemma lowerChar_capital (c : ascii) :
  (65 <= code c <= 90)%nat -> code (lowerChar c) = (code c + 32)%nat.
Proof.
  intros [Hlo Hhi]. unfold lowerChar.
  apply Nat.leb_le in Hlo. pose proof Hhi as Hhi'. apply Nat.leb_le in Hhi'.
  rewrite Hlo, Hhi'. cbn [andb orb].
  unfold code. apply nat_ascii_embedding. unfold code in Hhi. lia.
Qed.

Lemma lowerChar_no_capital (c : ascii) :
  negb ((65 <=? code (lowerChar c))%nat && (code (lowerChar c) <=? 90)%nat)
  = true.
Proof. destruct c as [[] [] [] [] [] [] [] []]; reflexivity. Qed.

Lemma lowerChar_small (c : ascii) :
  isWordChar c && negb ((65 <=? code c)%nat && (code c <=? 90)%nat) = true ->
  lowerChar c = c.
Proof.
  destruct c as [[] [] [] [] [] [] [] []]; vm_compute;
    intros H; congruence.
Qed.

Lemma isWordChar_iff (c : ascii) :
  isWordChar c = true
  <-> ((65 <= code c <= 90) \/ (97 <= code c <= 122)
       \/ (48 <= code c <= 57) \/ code c = 95)%nat.
Proof.
  unfold isWordChar.
  rewrite !orb_true_iff, !andb_true_iff, !Nat.leb_le, Nat.eqb_eq. tauto.
Qed.

Lemma normalized_chars (token : string) :
  everyChar (fun c => isWordChar c || isSpace c)
            (stripPunctuation (toLowerCase token)) = true
  /\ everyChar (fun c => negb ((65 <=? code c)%nat && (code c <=? 90)%nat))
               (stripPunctuation (toLowerCase token)) = true.
Proof.
  induction token as [| c s [IH1 IH2]];
    cbn [toLowerCase stripPunctuation]; [now split |].
  destruct (isWordChar (lowerChar c) || isSpace (lowerChar c)) eqn:E;
    cbn [everyChar].
  - rewrite E, IH1, lowerChar_no_capital, IH2. now split.
  - now split.
Qed.

Lemma normalized_fixed (token : string) :
  everyChar (fun c => isWordChar c
                      && negb ((65 <=? code c)%nat && (code c <=? 90)%nat))
            token = true ->
  stripPunctuation (toLowerCase token) = token.
Proof.
  induction token as [| c s IH];
    cbn [toLowerCase stripPunctuation everyChar]; [reflexivity |].
  rewrite andb_true_iff. intros [Hc Hs].
  rewrite (lowerChar_small c Hc).
  apply andb_true_iff in Hc. destruct Hc as [-> _]. cbn [orb].
  now rewrite (IH Hs).
Qed.

(** C5: the call compares only the last word of the transcript (what
    follows its last blank); a script token, lower-cased and stripped of
    punctuation, matches when it equals the spoken word or is longer
    than 3 and occurs inside it; the first matching index of the window
    becomes the cursor and the scan stops there, and without a match the
    cursor is left alone.  Lower-casing sends A-Z to a-z, stripping
    removes every character that is neither of [A-Za-z0-9_] nor
    whitespace, so the normalized token holds no capital and no
    punctuation and a token of small letters, digits and underscores is
    its own normal form: "Hello," is compared as "hello", "Four." is
    found inside "fourteen", and "The" is not found inside "then". *)
Theorem matchTextToScript_first_match
        (ws : list string) (cur : nat) (transcript : string) :
  (exists pre,
      transcript = pre ++ lastSpokenWord transcript
      /\ everyChar (fun c => negb (isBlank c)) (lastSpokenWord transcript) = true
      /\ (pre = "" \/ exists pre', pre = pre' ++ " "))
  /\ (forall other,
         lastSpokenWord other = lastSpokenWord transcript ->
         matchTextToScript ws cur other = matchTextToScript ws cur transcript)
  /\ (forall token,
         fuzzyMatch token (lastSpokenWord transcript) = true
         <-> stripPunctuation (toLowerCase token) = lastSpokenWord transcript
             \/ ((3 < String.length (stripPunctuation (toLowerCase token)))%nat
                 /\ exists pre post,
                      lastSpokenWord transcript
                      = pre ++ stripPunctuation (toLowerCase token) ++ post))
  /\ (forall i,
         matchTextToScript ws cur transcript = Some i
         <-> (cur <= i < Nat.min (List.length ws) (cur + 50))%nat
             /\ (exists token,
                    ws !! i = Some token
                    /\ fuzzyMatch token (lastSpokenWord transcript) = true)
             /\ (forall j token,
                    (cur <= j < i)%nat -> ws !! j = Some token ->
                    fuzzyMatch token (lastSpokenWord transcript) = false))
  /\ (matchTextToScript ws cur transcript = None
      <-> forall j token,
            (cur <= j < Nat.min (List.length ws) (cur + 50))%nat ->
            ws !! j = Some token ->
            fuzzyMatch token (lastSpokenWord transcript) = false)
  /\ cursorAfter ws cur transcript
     = match matchTextToScript ws cur transcript with
       | Some i => i
       | None => cur
       end
  /\ (forall token,
         everyChar (fun c => isWordChar c || isSpace c)
                   (stripPunctuation (toLowerCase token)) = true
         /\ everyChar (fun c => negb ((65 <=? code c)%nat
                                      && (code c <=? 90)%nat))
                      (stripPunctuation (toLowerCase token)) = true)
  /\ (forall token,
         everyChar (fun c => isWordChar c
                             && negb ((65 <=? code c)%nat
                                      && (code c <=? 90)%nat))
                   token = true ->
         stripPunctuation (toLowerCase token) = token)
  /\ (forall c, (65 <= code c <= 90)%nat ->
                 code (lowerChar c) = (code c + 32)%nat)
  /\ (forall c,
         isWordChar c = true
         <-> ((65 <= code c <= 90) \/ (97 <= code c <= 122)
              \/ (48 <= code c <= 57) \/ code c = 95)%nat)
  /\ stripPunctuation (toLowerCase "Hello,") = "hello"
  /\ stripPunctuation (toLowerCase "Don't STOP!") = "dont stop"
  /\ fuzzyMatch "Hello," "hello" = true
  /\ fuzzyMatch "Four." "fourteen" = true
  /\ fuzzyMatch "The" "then" = false
  /\ fuzzyMatch "hello" "hullo" = false.
Proof.
  split; [apply lastSpokenWord_suffix |].
  split; [intros other H; unfold matchTextToScript; now rewrite H |].
  split; [intros token; apply fuzzyMatch_iff |].
  split; [| split; [| split;
    [| split; [apply normalized_chars |];
       split; [apply normalized_fixed |];
       split; [apply lowerChar_capital |];
       split; [apply isWordChar_iff |];
       repeat split]]].
  - intros i. unfold matchTextToScript. cbv zeta. rewrite scan_Some.
    unfold searchWindow. split.
    + intros (Hi & Hm & Hfirst). split; [lia |]. split.
      * destruct (in_window_lookup ws cur i ltac:(lia)) as [token Ht].
        exists token. rewrite Ht in Hm. auto.
      * intros j token Hj Ht. specialize (Hfirst j Hj).
        now rewrite Ht in Hfirst.
    + intros (Hi & (token & Ht & Hm) & Hfirst). split; [lia |]. split.
      * now rewrite Ht.
      * intros j Hj.
        destruct (in_window_lookup ws cur j ltac:(lia)) as [tj Htj].
        rewrite Htj. apply (Hfirst j tj Hj Htj).
  - unfold matchTextToScript. cbv zeta. rewrite scan_None.
    unfold searchWindow. split.
    + intros H j token Hj Ht. specialize (H j ltac:(lia)).
      now rewrite Ht in H.
    + intros H j Hj.
      destruct (in_window_lookup ws cur j ltac:(lia)) as [tj Htj].
      rewrite Htj. apply (H j tj); [lia | exact Htj].
  - unfold cursorAfter.
    destruct (matchTextToScript ws cur transcript); reflexivity.
Qed.

(** The script of the alignment example. *)
Lemma example_script_words :
  words "one two three two four" = ["one"; "two"; "three"; "two"; "four"].
Proof. reflexivity. Qed.

(** C1, as the example is written: after "three" the cursor is 2, and
    the next update, "two", read from cursor 2, does not leave it at 2;
    the token at index 3 is "two" and the cursor becomes 3. *)
Lemma example_second_update_reaches_3 :
  cursorAfter (words "one two three two four") 0 "three" = 2%nat
  /\ words "one two three two four" !! 3%nat = Some "two"
  /\ matchTextToScript (words "one two three two four") 2 "two" = Some 3%nat
  /\ cursorAfter (words "one two three two four") 2 "two" = 3%nat
  /\ (cursorAfter (words "one two three two four") 2 "two" =? 2)%nat = false.
Proof. repeat split. Qed.

(** C1, amended: on the script "one two three two four", a call that
    reads cursor 0 and a transcript ending in "three" sets the cursor
    to 2; a call that reads cursor 2 and a transcript ending in "two"
    does not go back to index 1: it finds "two" ahead, at index 3, and
    sets the cursor to 3. *)
Theorem example_alignment (t1 t2 : string) :
  lastSpokenWord t1 = "three" ->
  lastSpokenWord t2 = "two" ->
  cursorAfter (words "one two three two four") 0 t1 = 2%nat
  /\ cursorAfter (words "one two three two four") 2 t2 = 3%nat.
Proof.
  intros H1 H2. unfold cursorAfter, matchTextToScript. cbv zeta.
  rewrite H1, H2. split; reflexivity.
Qed.

Lemma example_alignment_witness :
  cursorAfter (words "one two three two four") 0 "one two three" = 2%nat
  /\ cursorAfter (words "one two three two four") 2 "three two" = 3%nat.
Proof.
  apply (example_alignment "one two three" "three two"); reflexivity.
Defined.

End Aligner.

(* ------------------------------------------------------------------ *)
(** ** The tokenizer *)

Section Tokenizer.
Import JS Teleprompter.
Local Open Scope string_scope.

Lemma trimStart_no_space (s : string) :
  everyChar notSpace s = true -> trimStart s = s.
Proof.
  destruct s as [| c s]; simpl; [reflexivity |].
  unfold notSpace at 1. rewrite andb_true_iff, negb_true_iff.
  intros [-> _]. reflexivity.
Qed.

Lemma trimEnd_no_space (s : string) :
  everyChar notSpace s = true -> trimEnd s = s.
Proof.
  induction s as [| c s IH]; simpl; [reflexivity |].
  unfold notSpace at 1. rewrite andb_true_iff, negb_true_iff.
  intros [Hc Hs]. rewrite (IH Hs), Hc. destruct s; reflexivity.
Qed.

Lemma trim_no_space (s : string) :
  everyChar notSpace s = true -> trim s = s.
Proof.
  intros H. unfold trim. rewrite (trimStart_no_space s H).
  apply trimEnd_no_space, H.
Qed.

Lemma trim_all_space (s : string) :
  everyChar isSpace s = true -> trim s = "".
Proof.
  unfold trim. induction s as [| c s IH]; simpl; [reflexivity |].
  rewrite andb_true_iff. intros [-> Hs]. apply IH, Hs.
Qed.

Lemma kept_no_space (w : string) :
  everyChar notSpace w = true -> kept w = negb (w =? "").
Proof.
  intros H. unfold kept. rewrite (trim_no_space w H). destruct w; reflexivity.
Qed.

Lemma kept_all_space (w : string) :
  everyChar isSpace w = true -> kept w = false.
Proof.
  intros H. unfold kept. rewrite (trim_all_space w H). reflexivity.
Qed.

(** Both readers of the split: inside a token, and inside a run of
    whitespace. *)
Lemma splitRunsFrom_fields (s : string) :
  (forall cur,
      everyChar notSpace cur = true ->
      List.filter kept (splitRunsFrom false cur s)
      = List.filter (fun w => negb (w =? "")) (fieldsBy isSpace cur s))
  /\ (forall run,
        everyChar isSpace run = true ->
        List.filter kept (splitRunsFrom true run s)
        = List.filter (fun w => negb (w =? "")) (fieldsBy isSpace "" s)).
Proof.
  induction s as [| c s [IHtok IHrun]]; split.
  - intros cur Hcur. simpl. now rewrite (kept_no_space cur Hcur).
  - intros run Hrun. simpl. now rewrite (kept_all_space run Hrun).
  - intros cur Hcur. simpl. destruct (isSpace c) eqn:Hc.
    + simpl. rewrite (kept_no_space cur Hcur).
      rewrite IHrun by (simpl; now rewrite Hc). reflexivity.
    + apply IHtok. rewrite everyChar_snoc, Hcur. unfold notSpace. now rewrite Hc.
  - intros run Hrun. simpl. destruct (isSpace c) eqn:Hc.
    + apply IHrun. rewrite everyChar_snoc, Hrun, Hc. reflexivity.
    + simpl. rewrite (kept_all_space run Hrun).
      apply IHtok. simpl. unfold notSpace. now rewrite Hc.
Qed.

(** [words] is the tokenization the specification describes. *)
Lemma words_tokensBySpec (text : string) : words text = tokensBySpec text.
Proof.
  unfold words, tokensBySpec, splitRuns.
  apply (proj1 (splitRunsFrom_fields text) "" eq_refl).
Qed.

Lemma fieldsBy_fields_clean (sep : ascii -> bool) (cur s : string) :
  everyChar (fun c => negb (sep c)) cur = true ->
  Forall (fun w => everyChar (fun c => negb (sep c)) w = true)
         (fieldsBy sep cur s).
Proof.
  revert cur. induction s as [| c s IH]; intros cur Hcur; simpl.
  - repeat constructor. exact Hcur.
  - destruct (sep c) eqn:Hc.
    + constructor; [exact Hcur | now apply IH].
    + apply IH. now rewrite everyChar_snoc, Hcur, Hc.
Qed.

(** No token is empty and none holds a whitespace character. *)
Lemma words_clean (text : string) :
  Forall (fun w => w <> "" /\ everyChar notSpace w = true) (words text).
Proof.
  rewrite words_tokensBySpec. unfold tokensBySpec.
  apply List.Forall_forall. intros w Hw.
  apply List.filter_In in Hw. destruct Hw as [Hin Hne]. split.
  - intros ->. discriminate.
  - pose proof (fieldsBy_fields_clean isSpace "" text eq_refl) as H.
    rewrite List.Forall_forall in H. apply (H w Hin).
Qed.

End Tokenizer.

(* ------------------------------------------------------------------ *)
(** ** The teleprompter component in smart mode *)

Section SmartMode.
Import JS Teleprompter.
Local Open Scope string_scope.

Lemma runEffect_cursor (st : State) :
  currentWordIndex (runEffect st) = currentWordIndex st
  /\ text (runEffect st) = text st.
Proof. unfold runEffect. destruct (mode st), (isListening st); split; reflexivity. Qed.

(** C2, as written, fails: with the cursor at 2, an edit of the script
    leaves the cursor at 2. *)
Lemma edit_leaves_cursor_at_2 :
  currentWordIndex
    (transcriptUpdate "three" (toggleListening (mount "one two three two four")))
  = 2%nat
  /\ currentWordIndex
       (setText "alpha beta"
          (transcriptUpdate "three"
             (toggleListening (mount "one two three two four"))))
     = 2%nat
  /\ words (text
              (setText "alpha beta"
                 (transcriptUpdate "three"
                    (toggleListening (mount "one two three two four")))))
     = ["alpha"; "beta"].
Proof. repeat split. Qed.

(** C2, amended: an edit stores the new text and leaves the cursor where
    it was; the token sequence of the new text is the text split at
    whitespace with the empty tokens discarded. *)
Theorem setText_retokenizes_keeps_cursor (value : string) (st : State) :
  text (setText value st) = value
  /\ currentWordIndex (setText value st) = currentWordIndex st
  /\ words (text (setText value st)) = tokensBySpec value
  /\ Forall (fun w => w <> "" /\ everyChar (fun c => negb (isSpace c)) w = true)
            (words (text (setText value st))).
Proof.
  assert (Ht : text (setText value st) = value).
  { unfold setText. destruct (String.eqb_spec (text st) value) as [E | E].
    - exact E.
    - exact (proj2 (runEffect_cursor _)). }
  split; [exact Ht |]. split; [| rewrite Ht; split].
  - unfold setText. destruct (text st =? value); [reflexivity |].
    exact (proj1 (runEffect_cursor _)).
  - apply words_tokensBySpec.
  - apply words_clean.
Qed.

(** A transcript either leaves the cursor or puts it in the window that
    starts at the index the handler was built with. *)
Lemma transcriptUpdate_window (raw : string) (st : State) (h : Closure) :
  onresult st = Some h ->
  currentWordIndex (transcriptUpdate raw st) = currentWordIndex st
  \/ (seenIndex h <= currentWordIndex (transcriptUpdate raw st)
                   < seenIndex h + 50)%nat.
Proof.
  intros Hh. unfold transcriptUpdate. rewrite Hh.
  destruct (matchTextToScript _ _ _) as [i |] eqn:E; [right | now left].
  apply matchTextToScript_forward in E. simpl. lia.
Qed.

(** The handler is only replaced by the effect; a transcript keeps it. *)
Lemma transcriptUpdate_handler (raw : string) (st : State) :
  onresult (transcriptUpdate raw st) = onresult st.
Proof.
  unfold transcriptUpdate. destruct (onresult st) as [h |] eqn:E; [| exact E].
  destruct (matchTextToScript _ _ _); [reflexivity | exact E].
Qed.

(** While the handler's index is the current one the cursor cannot go
    back. *)
Lemma transcriptUpdate_fresh_forward (raw : string) (st : State) (h : Closure) :
  onresult st = Some h ->
  seenIndex h = currentWordIndex st ->
  (currentWordIndex st <= currentWordIndex (transcriptUpdate raw st))%nat.
Proof.
  intros Hh Hfresh.
  destruct (transcriptUpdate_window raw st h Hh) as [-> | H]; lia.
Qed.

(** Through a whole session of transcripts the handler stays the one the
    effect installed, and the cursor stays where it was or lies in the
    50 tokens that start at the index the handler was built with. *)
Lemma session_window (raws : list string) (st : State) (h : Closure) :
  onresult st = Some h ->
  onresult (fold_left (fun s raw => transcriptUpdate raw s) raws st) = Some h
  /\ (currentWordIndex (fold_left (fun s raw => transcriptUpdate raw s) raws st)
      = currentWordIndex st
      \/ (seenIndex h
          <= currentWordIndex
               (fold_left (fun s raw => transcriptUpdate raw s) raws st)
          < seenIndex h + 50)%nat).
Proof.
  revert st. induction raws as [| raw raws IH]; intros st Hh; simpl.
  - split; [exact Hh | now left].
  - assert (Hh' : onresult (transcriptUpdate raw st) = Some h)
      by now rewrite transcriptUpdate_handler.
    destruct (IH _ Hh') as [Hkeep Hcur]. split; [exact Hkeep |].
    destruct Hcur as [-> | Hcur]; [| now right].
    apply transcriptUpdate_window, Hh.
Qed.

(** C6 on the running component: listening starts at cursor 0, "three"
    moves the cursor to 2, and "two" then moves it back to 1, because
    the handler still scans from the index 0 it was built with. *)
Theorem cursor_goes_back_with_stale_handler :
  currentWordIndex (toggleListening (mount "one two three two four")) = 0%nat
  /\ onresult (toggleListening (mount "one two three two four"))
     = Some (mkClosure ["one"; "two"; "three"; "two"; "four"] 0)
  /\ currentWordIndex
       (transcriptUpdate "three"
          (toggleListening (mount "one two three two four")))
     = 2%nat
  /\ onresult
       (transcriptUpdate "three"
          (toggleListening (mount "one two three two four")))
     = Some (mkClosure ["one"; "two"; "three"; "two"; "four"] 0)
  /\ currentWordIndex
       (transcriptUpdate "two"
          (transcriptUpdate "three"
             (toggleListening (mount "one two three two four"))))
     = 1%nat.
Proof. repeat split. Qed.

End SmartMode.

(* ------------------------------------------------------------------ *)
(** ** The double-clap detector *)

Section Claps.
Import AudioMonitor.

Lemma detectClap_off (peak : Q) (now lastClapTime : Z) :
  detectClap false peak now lastClapTime = (lastClapTime, false).
Proof. reflexivity. Qed.

Lemma detectClap_quiet (peak : Q) (now lastClapTime : Z) :
  (peak <= 0.6)%Q ->
  detectClap true peak now lastClapTime = (lastClapTime, false).
Proof.
  intros H. unfold detectClap. apply Qgtb_le in H. now rewrite H.
Qed.

(** What the code does with a loud frame, by the gap to the stored
    timestamp: up to 100 ms it is ignored, between 100 and 800 ms
    (both excluded) it fires and resets the timestamp to 0, from 800 ms
    on it only becomes the stored timestamp. *)
Lemma detectClap_loud (peak : Q) (now lastClapTime : Z) :
  (0.6 < peak)%Q ->
  detectClap true peak now lastClapTime
  = if now - lastClapTime <=? 100 then (lastClapTime, false)
    else if now - lastClapTime <? 800 then (0, true)
         else (now, false).
Proof.
  intros H. unfold detectClap. apply Qgtb_lt in H. rewrite H. simpl.
  destruct (Z.ltb_spec 100 (now - lastClapTime));
    destruct (Z.leb_spec (now - lastClapTime) 100); try lia; reflexivity.
Qed.

(** The peak is the largest [|x|] of the buffer. *)
Lemma peak_fold_gt (x : Q) (dataArray : list Z) (acc : Q) :
  (x < fold_left (fun peak d =>
                    let absX := Qabs (sample d) in
                    if Qgtb absX peak then absX else peak)
                 dataArray acc)%Q
  <-> (x < acc)%Q \/ Exists (fun d => (x < Qabs (sample d))%Q) dataArray.
Proof.
  revert acc. induction dataArray as [| d l IH]; intros acc; cbn [fold_left].
  - split; [intros H; now left | intros [H | H]; [exact H | inversion H]].
  - rewrite IH. cbv zeta. destruct (Qgtb (Qabs (sample d)) acc) eqn:Hgt.
    + apply Qgtb_lt in Hgt. split.
      * intros [H | H]; right; [now left | now right].
      * intros [H | H].
        -- left. now apply Qlt_trans with acc.
        -- inversion H; subst; [now left | now right].
    + apply Qgtb_le in Hgt. split.
      * intros [H | H]; [now left | right; now right].
      * intros [H | H]; [now left |].
        inversion H; subst; [| now right].
        left. now apply Qlt_le_trans with (Qabs (sample d)).
Qed.

(** A byte sample is loud when it is at most 51 or at least 205. *)
Lemma sample_loud (d : Z) :
  (0.6 < Qabs (sample d))%Q <-> d <= 51 \/ 205 <= d.
Proof.
  unfold sample, Qabs, Qlt, Qdiv, Qminus, Qplus, Qmult, Qopp, Qinv, inject_Z.
  simpl. lia.
Qed.

(** A frame qualifies when one of its samples is that far from the
    middle value 128. *)
Lemma peakOf_loud (dataArray : list Z) :
  Qgtb (peakOf dataArray) 0.6 = true
  <-> Exists (fun d => d <= 51 \/ 205 <= d) dataArray.
Proof.
  rewrite Qgtb_lt. unfold peakOf. rewrite peak_fold_gt. split.
  - intros [H | H]; [discriminate H |].
    apply List.Exists_exists in H. destruct H as (d & Hin & Hd).
    apply List.Exists_exists. exists d. split; [exact Hin | now apply sample_loud].
  - intros H. right.
    apply List.Exists_exists in H. destruct H as (d & Hin & Hd).
    apply List.Exists_exists. exists d. split; [exact Hin | now apply sample_loud].
Qed.

(** The three clap examples, for claps heard at any time [t0] of the
    clock that is not within 800 ms of its origin (the start value 0 of
    the timestamp stands for "no clap yet"). *)
Lemma clap_examples (t0 : Z) (peak : Q) :
  (0.6 < peak)%Q -> 800 <= t0 ->
  claps true [(t0, peak); (t0 + 500, peak)] 0 = (0, 1%nat)
  /\ claps true [(t0, peak); (t0 + 50, peak)] 0 = (t0, 0%nat)
  /\ claps true [(t0, peak); (t0 + 900, peak)] 0 = (t0 + 900, 0%nat)
  /\ claps true [(t0, peak); (t0 + 900, peak); (t0 + 1400, peak)] 0
     = (0, 1%nat).
Proof.
  intros Hp Ht. unfold claps.
  rewrite !(detectClap_loud peak) by exact Hp.
  replace (t0 - 0 <=? 100) with false by (symmetry; apply Z.leb_gt; lia).
  replace (t0 - 0 <? 800) with false by (symmetry; apply Z.ltb_ge; lia).
  rewrite !(detectClap_loud peak) by exact Hp.
  replace (t0 + 500 - t0) with 500 by lia.
  replace (t0 + 50 - t0) with 50 by lia.
  replace (t0 + 900 - t0) with 900 by lia. simpl.
  rewrite !(detectClap_loud peak) by exact Hp.
  replace (t0 + 1400 - (t0 + 900)) with 500 by lia. simpl.
  repeat split.
Qed.

(** The rule of the detector as the code has it: with the trigger
    enabled a frame whose peak is above 0.6 is a transient.  No more
    than 100 ms after the stored timestamp it is ignored and the
    timestamp is kept; more than 100 ms and less than 800 ms after it,
    it fires one trigger and the timestamp is reset to 0; from 800 ms on
    its time becomes the stored timestamp.  Peaks at 0 and 500 ms fire
    one trigger, peaks at 0 and 50 ms fire none and count as one, peaks
    at 0 and 900 ms fire none and a third peak at 1400 ms then pairs
    with the second; the same holds for peaks at [t0], [t0 + 500], ...
    on a clock that is past 800. *)
Lemma clap_rule (peak : Q) (now lastClapTime t0 : Z) :
  (0.6 < peak)%Q -> 800 <= t0 ->
  (now - lastClapTime <= 100 ->
   detectClap true peak now lastClapTime = (lastClapTime, false))
  /\ (100 < now - lastClapTime < 800 ->
      detectClap true peak now lastClapTime = (0, true))
  /\ (800 <= now - lastClapTime ->
      detectClap true peak now lastClapTime = (now, false))
  /\ (forall quiet, (quiet <= 0.6)%Q ->
                    detectClap true quiet now lastClapTime = (lastClapTime, false))
  /\ detectClap false peak now lastClapTime = (lastClapTime, false)
  /\ (claps true [(0, peak); (500, peak)] 0 = (0, 1%nat)
      /\ claps true [(0, peak); (50, peak)] 0 = (0, 0%nat)
      /\ claps true [(0, peak); (900, peak)] 0 = (900, 0%nat)
      /\ claps true [(0, peak); (900, peak); (1400, peak)] 0 = (0, 1%nat))
  /\ (claps true [(t0, peak); (t0 + 500, peak)] 0 = (0, 1%nat)
      /\ claps true [(t0, peak); (t0 + 50, peak)] 0 = (t0, 0%nat)
      /\ claps true [(t0, peak); (t0 + 900, peak)] 0 = (t0 + 900, 0%nat)
      /\ claps true [(t0, peak); (t0 + 900, peak); (t0 + 1400, peak)] 0
         = (0, 1%nat)).
Proof.
  intros Hp Ht.
  split; [| split; [| split; [| split; [| split; [| split]]]]].
  - intros H. rewrite (detectClap_loud peak) by exact Hp.
    now replace (now - lastClapTime <=? 100) with true
      by (symmetry; apply Z.leb_le; lia).
  - intros H. rewrite (detectClap_loud peak) by exact Hp.
    replace (now - lastClapTime <=? 100) with false
      by (symmetry; apply Z.leb_gt; lia).
    now replace (now - lastClapTime <? 800) with true
      by (symmetry; apply Z.ltb_lt; lia).
  - intros H. rewrite (detectClap_loud peak) by exact Hp.
    replace (now - lastClapTime <=? 100) with false
      by (symmetry; apply Z.leb_gt; lia).
    now replace (now - lastClapTime <? 800) with false
      by (symmetry; apply Z.ltb_ge; lia).
  - intros quiet Hq. now apply detectClap_quiet.
  - apply detectClap_off.
  - unfold claps. rewrite !(detectClap_loud peak) by exact Hp. simpl.
    rewrite !(detectClap_loud peak) by exact Hp. simpl.
    rewrite !(detectClap_loud peak) by exact Hp. simpl.
    repeat split.
  - now apply clap_examples.
Qed.

(** C3 at the boundary: a loud frame exactly 100 ms after the stored
    timestamp.  It is not under 100 ms after it, and it is within
    800 ms, yet the code ignores it: no trigger, and the stored
    timestamp stays.  One millisecond later it fires. *)
Theorem clap_100ms_apart_is_ignored (lastClapTime : Z) (peak : Q) :
  (0.6 < peak)%Q ->
  detectClap true peak (lastClapTime + 100) lastClapTime = (lastClapTime, false)
  /\ detectClap true peak (lastClapTime + 101) lastClapTime = (0, true)
  /\ claps true [(lastClapTime + 100, peak)] lastClapTime = (lastClapTime, 0%nat)
  /\ claps true [(lastClapTime + 101, peak)] lastClapTime = (0, 1%nat).
Proof.
  intros Hp. unfold claps. rewrite !(detectClap_loud peak) by exact Hp.
  replace (lastClapTime + 100 - lastClapTime) with 100 by lia.
  replace (lastClapTime + 101 - lastClapTime) with 101 by lia.
  repeat split.
Qed.

Lemma clap_100ms_apart_is_ignored_witness :
  detectClap true 0.7 1700000000100 1700000000000 = (1700000000000, false)
  /\ detectClap true 0.7 1700000000101 1700000000000 = (0, true)
  /\ claps true [(1700000000100, 0.7%Q)] 1700000000000 = (1700000000000, 0%nat)
  /\ claps true [(1700000000101, 0.7%Q)] 1700000000000 = (0, 1%nat).
Proof.
  apply (clap_100ms_apart_is_ignored 1700000000000 0.7%Q). reflexivity.
Defined.

End Claps.

(* ------------------------------------------------------------------ *)
(** ** File names and the shot list *)

Section Naming.
Import JS App.
Local Open Scope string_scope.

Lemma underscoreRunsFrom_no_space (afterSpace : bool) (s : string) :
  everyChar notSpace (underscoreRunsFrom afterSpace s) = true.
Proof.
  revert afterSpace. induction s as [| c s IH]; intros afterSpace; simpl.
  - reflexivity.
  - destruct (isSpace c) eqn:Hc.
    + destruct afterSpace; simpl; now rewrite ?IH.
    + simpl. unfold notSpace at 1. now rewrite Hc, IH.
Qed.

(** A name without whitespace is kept as it is. *)
Lemma underscoreRunsFrom_clean (afterSpace : bool) (s : string) :
  everyChar notSpace s = true -> underscoreRunsFrom afterSpace s = s.
Proof.
  revert afterSpace. induction s as [| c s IH]; intros afterSpace; simpl.
  - reflexivity.
  - unfold notSpace at 1. rewrite andb_true_iff, negb_true_iff.
    intros [-> Hs]. now rewrite IH.
Qed.

(** One whitespace character between two clean parts becomes one
    underscore. *)
Lemma underscoreRuns_single (a b : string) (c : ascii) :
  everyChar notSpace a = true -> isSpace c = true ->
  everyChar notSpace b = true ->
  underscoreRuns (a ++ String c b) = a ++ String "_" b.
Proof.
  intros Ha Hc Hb. unfold underscoreRuns.
  induction a as [| x a IH]; simpl.
  - now rewrite Hc, (underscoreRunsFrom_clean true b Hb).
  - simpl in Ha. unfold notSpace at 1 in Ha.
    rewrite andb_true_iff, negb_true_iff in Ha. destruct Ha as [Hx Ha].
    now rewrite Hx, (IH Ha).
Qed.

Lemma bumpTake_length (a : string) (prev : list Shot) :
  List.length (bumpTake a prev) = List.length prev.
Proof. apply List.length_map. Qed.

(** The shots with the active id gain one take, the others are kept. *)
Lemma bumpTake_lookup (a : string) (prev : list Shot) (k : nat) (s : Shot) :
  prev !! k = Some s ->
  bumpTake a prev !! k
  = Some (if id s =? a
          then mkShot (id s) (name s) (completed s) (take s + 1)
          else s).
Proof.
  revert k. induction prev as [| x prev IH]; intros k H.
  - discriminate.
  - destruct k as [| k]; simpl in *.
    + now injection H as ->.
    + now apply IH.
Qed.

Lemma findShot_Some (shots : list Shot) (a : option string) (s : Shot) :
  findShot shots a = Some s -> a = Some (id s) /\ In s shots.
Proof.
  destruct a as [a |]; simpl; [| discriminate].
  intros H. apply List.find_some in H. destruct H as [Hin Hid].
  apply String.eqb_eq in Hid. now subst.
Qed.


Lemma string_length_append (s t : string) :
  String.length (s ++ t) = (String.length s + String.length t)%nat.
Proof. induction s as [| c s IH]; simpl; [reflexivity | now rewrite IH]. Qed.

Lemma lengthsBelow_sound (len : nat) (from count n : Z) :
  lengthsBelow len from count = true ->
  (0 <= from <= n)%Z -> (n < from + count)%Z ->
  String.length (numberToString n) = len.
Proof.
  unfold lengthsBelow. rewrite List.forallb_forall. intros H Hlo Hhi.
  specialize (H (Z.to_nat n)). rewrite Z2Nat.id in H by lia.
  apply Nat.eqb_eq, H, List.in_seq. lia.
Qed.

Lemma pad2_length (n : Z) :
  (0 <= n <= 99)%Z -> String.length (pad2 n) = 2%nat.
Proof.
  intros Hn. unfold pad2. cbv zeta.
  destruct (Z_lt_le_dec n 10) as [Hlt | Hge].
  - assert (H1 : String.length (numberToString n) = 1%nat).
    { apply (lengthsBelow_sound 1 0 10); [vm_compute; reflexivity | lia | lia]. }
    rewrite H1. simpl. now rewrite H1.
  - assert (H2 : String.length (numberToString n) = 2%nat).
    { apply (lengthsBelow_sound 2 10 90); [vm_compute; reflexivity | lia | lia]. }
    rewrite H2. simpl. exact H2.
Qed.

Lemma year_length (n : Z) :
  (1000 <= n <= 9999)%Z -> String.length (numberToString n) = 4%nat.
Proof.
  intros Hn. apply (lengthsBelow_sound 4 1000 9000); [vm_compute; reflexivity | lia | lia].
Qed.

Lemma timestamp_length (now : Date) :
  dateInRange now = true -> String.length (timestamp now) = 13%nat.
Proof.
  unfold dateInRange. rewrite !andb_true_iff, !Z.leb_le.
  intros [[[[[[[[[? ?] ?] ?] ?] ?] ?] ?] ?] ?].
  unfold timestamp. rewrite !string_length_append.
  rewrite year_length, !pad2_length by lia. reflexivity.
Qed.

(** The name [onstop] builds, by whether the closure finds its shot. *)
Lemma onstopNaming_shot (seen : list Shot) (seenActive : option string)
      (now : Date) (prev : list Shot) (shot : Shot) :
  findShot seen seenActive = Some shot ->
  onstopNaming seen seenActive now prev
  = (underscoreRuns (name shot) ++ "_Take" ++ numberToString (take shot),
     bumpTake (id shot) prev).
Proof. intros H. unfold onstopNaming. now rewrite H. Qed.

Lemma onstopNaming_none (seen : list Shot) (seenActive : option string)
      (now : Date) (prev : list Shot) :
  findShot seen seenActive = None ->
  onstopNaming seen seenActive now prev = ("A6000_REC_" ++ timestamp now, prev).
Proof. intros H. unfold onstopNaming. now rewrite H. Qed.

Lemma onstop_eq (r : Recorder) (now : Date) (st : State) :
  onstop r now st
  = mkState (snd (onstopNaming (seenShots r) (seenActiveShotId r) now (shots st)))
            (activeShotId st) (videoStream st) (audioStream st)
            (isRecording st) (mediaRecorderRef st) (recordingTimerRef st)
            (intervals st) (nextInterval st) (alerts st) (consoleErrors st)
            (downloads st
               ++ [(fst (onstopNaming (seenShots r) (seenActiveShotId r) now
                           (shots st))
                      ++ "." ++ extension (mimeType r))%string])%list.
Proof.
  unfold onstop. destruct (onstopNaming _ _ _ _) as [filename shots'].
  reflexivity.
Qed.

(** The two ways through [stopRecording]: a live recorder is stopped
    and saves its file; otherwise only the flag and the interval are
    reset. *)
Lemma stopRecording_live (now : Date) (st : State) (r : Recorder) :
  mediaRecorderRef st = Some r -> recState r <> Inactive ->
  stopRecording now st
  = mkState (snd (onstopNaming (seenShots r) (seenActiveShotId r) now (shots st)))
            (activeShotId st) (videoStream st) (audioStream st) false
            (Some (mkRecorder Inactive (seenShots r) (seenActiveShotId r)
                              (mimeType r)))
            None (stoppedTimers st) (nextInterval st) (alerts st)
            (consoleErrors st)
            (downloads st
               ++ [(fst (onstopNaming (seenShots r) (seenActiveShotId r) now
                           (shots st))
                      ++ "." ++ extension (mimeType r))%string])%list.
Proof.
  intros Hr Hlive. unfold stopRecording. rewrite Hr.
  destruct (recState r); [congruence | |]; rewrite onstop_eq; reflexivity.
Qed.

Lemma stopRecording_idle (now : Date) (st : State) :
  mediaRecorderRef st = None
  \/ (exists r, mediaRecorderRef st = Some r /\ recState r = Inactive) ->
  stopRecording now st
  = mkState (shots st) (activeShotId st) (videoStream st) (audioStream st)
            false (mediaRecorderRef st) None (stoppedTimers st)
            (nextInterval st) (alerts st) (consoleErrors st) (downloads st).
Proof.
  intros Hidle. unfold stopRecording.
  destruct (mediaRecorderRef st) as [r0 |] eqn:E; [| cbn; now rewrite E].
  destruct Hidle as [Hr | (r & Hr & Hs)]; [discriminate |].
  injection Hr as ->. rewrite Hs. cbn. now rewrite E.
Qed.

Lemma recorder_live_or_idle (st : State) :
  (exists r, mediaRecorderRef st = Some r /\ recState r <> Inactive)
  \/ (mediaRecorderRef st = None
      \/ exists r, mediaRecorderRef st = Some r /\ recState r = Inactive).
Proof.
  destruct (mediaRecorderRef st) as [r |]; [| now right; left].
  destruct (recState r) eqn:E.
  - right; right. now exists r.
  - left. exists r. split; [reflexivity | congruence].
  - left. exists r. split; [reflexivity | congruence].
Qed.

(** Stopping a live recorder saves one file, named by [onstopNaming]
    from what the recorder's closure saw. *)
Lemma stopRecording_saves (now : Date) (st : State) (r : Recorder) :
  mediaRecorderRef st = Some r -> recState r <> Inactive ->
  downloads (stopRecording now st)
  = (downloads st
      ++ [(fst (onstopNaming (seenShots r) (seenActiveShotId r) now (shots st))
             ++ "." ++ extension (mimeType r))%string])%list
  /\ shots (stopRecording now st)
     = snd (onstopNaming (seenShots r) (seenActiveShotId r) now (shots st)).
Proof.
  intros Hr Hlive. rewrite (stopRecording_live now st r Hr Hlive).
  split; reflexivity.
Qed.

Lemma startRecording_closure (mime : string) (st : State) :
  videoStream st || audioStream st = true ->
  mediaRecorderRef (startRecording mime st)
  = Some (mkRecorder Recording (shots st) (activeShotId st) mime).
Proof.
  intros H. unfold startRecording.
  destruct (videoStream st), (audioStream st); try discriminate; reflexivity.
Qed.

(** C8, as written, fails when the selection changes while recording.
    First run: nothing is selected at the start, a shot is added (and
    becomes the selected one), and the stop still saves the default
    name and counts no take.  Second run: "Intro Scene" is selected at
    the start, "Outro" at the stop; the file is named after
    "Intro Scene" and it is "Intro Scene" whose take is counted. *)
Lemma stop_ignores_selection_made_while_recording :
  let ready := mkState [] None false true false None None [] 0 [] [] [] in
  let now := mkDate 2024 2 7 9 5 in
  let added := handleAddShot "17" "Intro Scene" (handleToggleRecord "" now ready) in
  let two := mkState [mkShot "17" "Intro Scene" false 1; mkShot "18" "Outro" false 1]
                     (Some "17") false true false None None [] 0 [] [] [] in
  let switched := selectShot "18" (handleToggleRecord "" now two) in
  (activeShotId added = Some "17"
   /\ isRecording added = true
   /\ downloads (handleToggleRecord "" now added) = ["A6000_REC_20240307_0905.webm"]
   /\ shots (handleToggleRecord "" now added) = [mkShot "17" "Intro Scene" false 1])
  /\ (activeShotId switched = Some "18"
      /\ downloads (handleToggleRecord "" now switched) = ["Intro_Scene_Take1.webm"]
      /\ shots (handleToggleRecord "" now switched)
         = [mkShot "17" "Intro Scene" false 2; mkShot "18" "Outro" false 1]).
Proof. vm_compute. repeat split. Qed.

(** C8, amended: the file saved when a recording stops is named after
    the shot that was selected when that recording was started: its name
    with each run of whitespace replaced by one underscore, then _Take
    and its take counter; every shot with that id then has its take
    counter raised by one and the other shots are unchanged.  When no
    shot was selected at the start the name is A6000_REC_ and the
    YYYYMMDD_HHMM stamp.  For "Intro Scene" at take 1 the name is
    Intro_Scene_Take1 and the stored take becomes 2. *)
Theorem stop_names_file_by_shot_at_start
        (mime : string) (now : Date) (st later : State) :
  videoStream st || audioStream st = true ->
  mediaRecorderRef later = mediaRecorderRef (startRecording mime st) ->
  (forall shot,
      findShot (shots st) (activeShotId st) = Some shot ->
      onstopNaming (shots st) (activeShotId st) now (shots later)
      = (underscoreRuns (name shot) ++ "_Take" ++ numberToString (take shot),
         bumpTake (id shot) (shots later))
      /\ downloads (stopRecording now later)
         = (downloads later
             ++ [((underscoreRuns (name shot) ++ "_Take"
                     ++ numberToString (take shot))
                    ++ "." ++ extension mime)%string])%list
      /\ everyChar notSpace (underscoreRuns (name shot)) = true
      /\ shots (stopRecording now later) = bumpTake (id shot) (shots later)
      /\ List.length (shots (stopRecording now later)) = List.length (shots later)
      /\ (forall k s,
            shots later !! k = Some s ->
            shots (stopRecording now later) !! k
            = Some (if id s =? id shot
                    then mkShot (id s) (name s) (completed s) (take s + 1)
                    else s)))
  /\ (findShot (shots st) (activeShotId st) = None ->
      downloads (stopRecording now later)
      = (downloads later
           ++ [(("A6000_REC_" ++ timestamp now) ++ "." ++ extension mime)%string])%list
      /\ shots (stopRecording now later) = shots later
      /\ (dateInRange now = true -> String.length (timestamp now) = 13%nat))
  /\ underscoreRuns "Intro Scene" = "Intro_Scene"
  /\ onstopNaming [mkShot "17" "Intro Scene" false 1] (Some "17") now
                  [mkShot "17" "Intro Scene" false 1]
     = ("Intro_Scene_Take1", [mkShot "17" "Intro Scene" false 2]).
Proof.
  intros Hsrc Hrec. rewrite (startRecording_closure mime st Hsrc) in Hrec.
  destruct (stopRecording_saves now later _ Hrec ltac:(discriminate))
    as [Hdl Hshots].
  cbn [seenShots seenActiveShotId mimeType] in Hdl, Hshots.
  split; [| split; [| split; reflexivity]].
  - intros shot Hfind.
    rewrite (onstopNaming_shot _ _ now (shots later) shot Hfind) in Hdl, Hshots.
    cbn [fst snd] in Hdl, Hshots.
    split; [apply onstopNaming_shot, Hfind |].
    split; [exact Hdl |].
    split; [apply underscoreRunsFrom_no_space |].
    split; [exact Hshots |]. rewrite Hshots.
    split; [apply bumpTake_length |].
    intros k s Hk. apply bumpTake_lookup, Hk.
  - intros Hfind.
    rewrite (onstopNaming_none _ _ now (shots later) Hfind) in Hdl, Hshots.
    cbn [fst snd] in Hdl, Hshots.
    split; [exact Hdl |]. split; [exact Hshots | apply timestamp_length].
Qed.

Lemma stop_names_file_by_shot_at_start_witness :
  downloads
    (stopRecording (mkDate 2024 2 7 9 5)
       (startRecording ""
          (mkState [mkShot "17" "Intro Scene" false 1] (Some "17")
                   false true false None None [] 0 [] [] [])))
  = ["Intro_Scene_Take1.webm"]
  /\ shots
       (stopRecording (mkDate 2024 2 7 9 5)
          (startRecording ""
             (mkState [mkShot "17" "Intro Scene" false 1] (Some "17")
                      false true false None None [] 0 [] [] [])))
     = [mkShot "17" "Intro Scene" false 2].
Proof.
  pose proof
    (stop_names_file_by_shot_at_start "" (mkDate 2024 2 7 9 5)
       (mkState [mkShot "17" "Intro Scene" false 1] (Some "17")
                false true false None None [] 0 [] [] [])
       (startRecording ""
          (mkState [mkShot "17" "Intro Scene" false 1] (Some "17")
                   false true false None None [] 0 [] [] []))
       eq_refl eq_refl) as [Hshot _].
  destruct (Hshot (mkShot "17" "Intro Scene" false 1) eq_refl)
    as (_ & Hdl & _ & Hshots & _).
  split; [exact Hdl | exact Hshots].
Defined.

End Naming.

(* ------------------------------------------------------------------ *)
(** ** Recorder errors *)

Section RecorderError.
Import JS App.
Local Open Scope string_scope.

Lemma stopRecording_flags (now : Date) (st : State) :
  isRecording (stopRecording now st) = false
  /\ recordingTimerRef (stopRecording now st) = None
  /\ alerts (stopRecording now st) = alerts st
  /\ consoleErrors (stopRecording now st) = consoleErrors st.
Proof.
  destruct (recorder_live_or_idle st) as [(r & Hr & Hs) | Hidle].
  - rewrite (stopRecording_live now st r Hr Hs). repeat split.
  - rewrite (stopRecording_idle now st Hidle). repeat split.
Qed.

(** After the stop path the recorder, if there is one, is inactive. *)
Lemma stopRecording_recorder (now : Date) (st : State) (r : Recorder) :
  mediaRecorderRef (stopRecording now st) = Some r -> recState r = Inactive.
Proof.
  destruct (recorder_live_or_idle st) as [(r0 & Hr & Hs) | Hidle].
  - rewrite (stopRecording_live now st r0 Hr Hs). cbn. now intros [= <-].
  - rewrite (stopRecording_idle now st Hidle). cbn.
    destruct Hidle as [Hn | (r0 & Hr & Hs)]; rewrite ?Hn, ?Hr; [discriminate |].
    now intros [= <-].
Qed.

(** The duration interval is no longer running. *)
Lemma stopRecording_interval (now : Date) (st : State) (t : nat) :
  recordingTimerRef st = Some t -> ~ In t (intervals (stopRecording now st)).
Proof.
  intros Ht.
  assert (Hdrop : ~ In t (stoppedTimers st)).
  { unfold stoppedTimers, clearInterval. rewrite Ht. intros Hin.
    apply List.filter_In in Hin. destruct Hin as [_ Hne].
    now rewrite Nat.eqb_refl in Hne. }
  destruct (recorder_live_or_idle st) as [(r & Hr & Hs) | Hidle].
  - now rewrite (stopRecording_live now st r Hr Hs).
  - now rewrite (stopRecording_idle now st Hidle).
Qed.

(** The error handler differs from the stop path in the console only. *)
Lemma onerror_eq (now : Date) (st : State) :
  onerror now st
  = mkState (shots (stopRecording now st)) (activeShotId (stopRecording now st))
            (videoStream (stopRecording now st))
            (audioStream (stopRecording now st))
            (isRecording (stopRecording now st))
            (mediaRecorderRef (stopRecording now st))
            (recordingTimerRef (stopRecording now st))
            (intervals (stopRecording now st))
            (nextInterval (stopRecording now st))
            (alerts (stopRecording now st))
            (consoleErrors st ++ ["Recorder error:"])%list
            (downloads (stopRecording now st)).
Proof.
  unfold onerror.
  destruct (recorder_live_or_idle st) as [(r & Hr & Hs) | Hidle].
  - rewrite (stopRecording_live now st r Hr Hs).
    erewrite stopRecording_live by (cbn; eassumption). reflexivity.
  - rewrite (stopRecording_idle now st Hidle).
    rewrite stopRecording_idle by exact Hidle. reflexivity.
Qed.

(** C9, as written, fails in its last part: a recorder error while
    recording stops the recording and writes to the console, and no
    alert is raised. *)
Lemma recorder_error_raises_no_alert :
  let now := mkDate 2024 2 7 9 5 in
  let recording :=
    startRecording "" (mkState [] None false true false None None [] 0 [] [] []) in
  isRecording recording = true
  /\ isRecording (onerror now recording) = false
  /\ alerts (onerror now recording) = []
  /\ consoleErrors (onerror now recording) = ["Recorder error:"].
Proof. vm_compute. repeat split. Qed.

(** C9, amended: a recorder error runs the stop path of a stop by the
    user, [stopRecording]: a recorder that is not inactive is stopped,
    the recording flag is cleared and the duration interval is
    cancelled; the error is written to the console and no alert is
    shown to the user. *)
Theorem onerror_runs_stop_path (now : Date) (st : State) :
  (shots (onerror now st) = shots (stopRecording now st)
   /\ activeShotId (onerror now st) = activeShotId (stopRecording now st)
   /\ isRecording (onerror now st) = isRecording (stopRecording now st)
   /\ mediaRecorderRef (onerror now st) = mediaRecorderRef (stopRecording now st)
   /\ recordingTimerRef (onerror now st) = recordingTimerRef (stopRecording now st)
   /\ intervals (onerror now st) = intervals (stopRecording now st)
   /\ downloads (onerror now st) = downloads (stopRecording now st))
  /\ (forall mime,
         isRecording st = true ->
         handleToggleRecord mime now st = stopRecording now st)
  /\ isRecording (onerror now st) = false
  /\ recordingTimerRef (onerror now st) = None
  /\ (forall t, recordingTimerRef st = Some t -> ~ In t (intervals (onerror now st)))
  /\ (forall r, mediaRecorderRef (onerror now st) = Some r -> recState r = Inactive)
  /\ alerts (onerror now st) = alerts st
  /\ consoleErrors (onerror now st)
     = (consoleErrors st ++ ["Recorder error:"])%list.
Proof.
  rewrite onerror_eq.
  cbn [shots activeShotId videoStream audioStream isRecording mediaRecorderRef
       recordingTimerRef intervals nextInterval alerts consoleErrors downloads].
  split; [repeat split |].
  split; [intros mime H; unfold handleToggleRecord; now rewrite H |].
  split; [apply stopRecording_flags |].
  split; [apply stopRecording_flags |].
  split; [intros t Ht; now apply stopRecording_interval |].
  split; [intros r; apply stopRecording_recorder |].
  split; [apply stopRecording_flags | reflexivity].
Qed.

End RecorderError.

(* ------------------------------------------------------------------ *)
(** ** The volume detector *)

Section VoiceActivity.
Import Teleprompter.

Variable sensitivity : Z.

Lemma threshold_value :
  (threshold sensitivity == 55 - 0.4 * inject_Z sensitivity)%Q.
Proof. unfold threshold. ring. Qed.

Lemma threshold_range :
  1 <= sensitivity <= 100 ->
  (15 <= threshold sensitivity)%Q /\ (threshold sensitivity <= 54.6)%Q.
Proof.
  intros Hs. unfold threshold, Qle, Qminus, Qplus, Qmult, Qopp, inject_Z.
  simpl. lia.
Qed.

(** The test [average > threshold] on a buffer of [n] bytes, in
    integers: five times the sum against [n (275 - 2 s)]. *)
Lemma average_above (dataArray : list Z) :
  dataArray <> [] ->
  Qgtb (average dataArray) (threshold sensitivity) = true
  <-> Z.of_nat (List.length dataArray) * (275 - 2 * sensitivity)
      < 5 * fold_left Z.add dataArray 0.
Proof.
  intros Hne. rewrite Qgtb_lt. unfold average, threshold.
  destruct (Z.of_nat (List.length dataArray)) as [| p | p] eqn:Hlen.
  - destruct dataArray; [congruence | discriminate].
  - unfold Qlt, Qdiv, Qminus, Qplus, Qmult, Qopp, Qinv, inject_Z. simpl. lia.
  - lia.
Qed.

Lemma settled_idle : settled idle.
Proof. left. split; [reflexivity | discriminate]. Qed.

Lemma clearTimeout_single (id : nat) (due : Z) :
  clearTimeout id [(id, due)] = [].
Proof. unfold clearTimeout. simpl. now rewrite Nat.eqb_refl. Qed.

(** A frame above the threshold: active at once, ref cleared, and no
    timeout left pending. *)
Lemma analyze_above (now : Z) (avg : Q) (g : Detector) :
  (threshold sensitivity < avg)%Q ->
  voiceActive (analyze sensitivity now avg g) = true
  /\ silenceTimerRef (analyze sensitivity now avg g) = None
  /\ (settled g -> pending (analyze sensitivity now avg g) = []).
Proof.
  intros H. apply Qgtb_lt in H. unfold analyze. rewrite H.
  destruct (silenceTimerRef g) as [id |] eqn:Href; repeat split; cbn.
  - intros [[Hp _] | (id' & due & Hp & Hr & _)]; rewrite Hp.
    + reflexivity.
    + assert (id' = id) by congruence. subst. apply clearTimeout_single.
  - intros [[Hp _] | (id' & due & _ & Hr & _)]; [exact Hp | congruence].
Qed.

(** A frame at or below the threshold arms one timeout, due in 600 ms,
    when the detector is active and the ref is clear, and does nothing
    otherwise. *)
Lemma analyze_below (now : Z) (avg : Q) (g : Detector) :
  (avg <= threshold sensitivity)%Q ->
  (voiceActive g = true -> silenceTimerRef g = None ->
   analyze sensitivity now avg g
   = mkDetector true (Some (nextId g)) ((nextId g, now + 600) :: pending g)
            (S (nextId g)))
  /\ (voiceActive g = false \/ silenceTimerRef g <> None ->
      analyze sensitivity now avg g = g).
Proof.
  intros H. apply Qgtb_le in H. unfold analyze. rewrite H. split.
  - intros Ha Hr. now rewrite Hr, Ha.
  - intros [Ha | Hr].
    + destruct (silenceTimerRef g); [reflexivity | now rewrite Ha].
    + destruct (silenceTimerRef g); [reflexivity | congruence].
Qed.

Lemma analyze_settled (now : Z) (avg : Q) (g : Detector) :
  settled g -> settled (analyze sensitivity now avg g).
Proof.
  intros Hg.
  destruct (Qlt_le_dec (threshold sensitivity) avg) as [Habove | Hbelow].
  - destruct (analyze_above now avg g Habove) as (Ha & Hr & Hp).
    left. split; [now apply Hp | now intros _].
  - destruct (analyze_below now avg g Hbelow) as [Harm Hkeep].
    destruct Hg as [[Hp Hclear] | (id & due & Hp & Hr & Ha)].
    + destruct (voiceActive g) eqn:Ha.
      * rewrite (Harm eq_refl (Hclear eq_refl)), Hp. right.
        now exists (nextId g), (now + 600).
      * rewrite Hkeep by now left. left. split; [exact Hp |].
        rewrite Ha. discriminate.
    + rewrite Hkeep by (right; congruence). right. now exists id, due.
Qed.

Lemma dueTime_single (id id' : nat) (due due' : Z) :
  dueTime id [(id', due')] = Some due -> id' = id /\ due' = due.
Proof.
  unfold dueTime. simpl. destruct (Nat.eqb_spec id' id); simpl.
  - now intros [= ->].
  - discriminate.
Qed.

(** A timeout that runs was the one pending; it leaves none. *)
Lemma timeout_step (now : Z) (id : nat) (g g' : Detector) :
  settled g ->
  step sensitivity g (Timeout now id) = Some g' ->
  exists due,
    pending g = [(id, due)] /\ due <= now
    /\ voiceActive g = true
    /\ g' = mkDetector false (silenceTimerRef g) [] (nextId g).
Proof.
  intros Hg. simpl.
  destruct (dueTime id (pending g)) as [due |] eqn:Hdue; [| discriminate].
  destruct (Z.leb_spec due now) as [Hle |]; [| discriminate].
  intros [= <-].
  destruct Hg as [[Hp _] | (id' & due' & Hp & Hr & Ha)]; rewrite Hp in Hdue.
  - discriminate.
  - apply dueTime_single in Hdue. destruct Hdue as [-> ->].
    exists due. repeat split; try assumption.
    unfold timeoutFires. now rewrite Hp, clearTimeout_single.
Qed.

Lemma step_settled (g g' : Detector) (e : Event) :
  settled g -> step sensitivity g e = Some g' -> settled g'.
Proof.
  intros Hg. destruct e as [now avg | now id].
  - simpl. intros [= <-]. now apply analyze_settled.
  - intros Hstep. destruct (timeout_step now id g g' Hg Hstep)
      as (due & _ & _ & _ & ->).
    left. split; [reflexivity | discriminate].
Qed.

Lemma analyze_voiceActive (now : Z) (avg : Q) (g : Detector) :
  voiceActive (analyze sensitivity now avg g)
  = if Qgtb avg (threshold sensitivity) then true else voiceActive g.
Proof.
  unfold analyze. destruct (Qgtb avg (threshold sensitivity)).
  - destruct (silenceTimerRef g); reflexivity.
  - destruct (silenceTimerRef g); [reflexivity |].
    destruct (voiceActive g) eqn:Ha; [reflexivity | exact Ha].
Qed.

(** One event of a run. *)
Lemma exec_cons (c : Z) (g : Detector) (e : Event) (evs : list Event)
      (es : list Edge) (fin : Detector) :
  exec sensitivity c g (e :: evs) = Some (es, fin) ->
  c <= timeOf e
  /\ exists g' es',
      step sensitivity g e = Some g'
      /\ exec sensitivity (timeOf e) g' evs = Some (es', fin)
      /\ es = (edgeAt (timeOf e) (voiceActive g) (voiceActive g') ++ es')%list.
Proof.
  cbn [exec]. destruct (Z.leb_spec c (timeOf e)) as [Hc |]; [| discriminate].
  destruct (step sensitivity g e) as [g' |] eqn:Hstep; [| discriminate].
  destruct (exec sensitivity (timeOf e) g' evs) as [[es' fin'] |] eqn:Hrest;
    [| discriminate].
  intros [= <- <-]. split; [exact Hc |]. now exists g', es'.
Qed.

Lemma exec_app (l1 l2 : list Event) :
  forall (c : Z) (g : Detector) (es : list Edge) (fin : Detector),
    exec sensitivity c g (l1 ++ l2) = Some (es, fin) ->
    exists es1 g1 es2,
      exec sensitivity c g l1 = Some (es1, g1)
      /\ exec sensitivity (clockAfter c l1) g1 l2 = Some (es2, fin)
      /\ es = (es1 ++ es2)%list.
Proof.
  induction l1 as [| e l1 IH]; intros c g es fin H.
  - exists [], g, es. repeat split. exact H.
  - rewrite <- List.app_comm_cons in H. apply exec_cons in H.
    destruct H as (Hc & g' & es' & Hstep & Hrest & ->).
    destruct (IH _ _ _ _ Hrest) as (es1 & g1 & es2 & H1 & H2 & ->).
    exists (edgeAt (timeOf e) (voiceActive g) (voiceActive g') ++ es1)%list,
           g1, es2.
    cbn [exec clockAfter]. apply Z.leb_le in Hc. rewrite Hc, Hstep, H1.
    repeat split; [exact H2 | now rewrite List.app_assoc].
Qed.

Lemma exec_settled (evs : list Event) :
  forall (c : Z) (g : Detector) (es : list Edge) (fin : Detector),
    settled g -> exec sensitivity c g evs = Some (es, fin) -> settled fin.
Proof.
  induction evs as [| e evs IH]; intros c g es fin Hg H.
  - simpl in H. now injection H as _ <-.
  - apply exec_cons in H. destruct H as (_ & g' & es' & Hstep & Hrest & _).
    apply (IH (timeOf e) g' es' fin); [| exact Hrest].
    now apply (step_settled g g' e).
Qed.

(** Rising edges come from frames above the threshold, at the time of
    the frame; falling edges come from timeouts. *)
Lemma exec_edges (evs : list Event) :
  forall (c : Z) (g : Detector) (es : list Edge) (fin : Detector),
    exec sensitivity c g evs = Some (es, fin) ->
    (forall t, In (Rising t) es ->
               exists avg, In (Frame t avg) evs
                           /\ (threshold sensitivity < avg)%Q)
    /\ (forall t, In (Falling t) es -> exists id, In (Timeout t id) evs).
Proof.
  induction evs as [| e evs IH]; intros c g es fin H.
  - simpl in H. injection H as <- _. split; intros t [].
  - apply exec_cons in H. destruct H as (_ & g' & es' & Hstep & Hrest & ->).
    destruct (IH _ _ _ _ Hrest) as [IHr IHf].
    assert (Hedge :
      match e with
      | Frame now avg =>
          voiceActive g' = if Qgtb avg (threshold sensitivity)
                           then true else voiceActive g
      | Timeout _ _ => voiceActive g' = false
      end).
    { destruct e as [now avg | now id]; simpl in Hstep.
      - injection Hstep as <-. apply analyze_voiceActive.
      - destruct (dueTime id (pending g)); [| discriminate].
        destruct (_ <=? _); [| discriminate]. now injection Hstep as <-. }
    split; intros t Hin; apply List.in_app_or in Hin; destruct Hin as [Hin | Hin].
    + destruct e as [now avg | now id]; simpl in *.
      * destruct (Qgtb avg (threshold sensitivity)) eqn:Hq.
        -- destruct (voiceActive g); rewrite Hedge in Hin; simpl in Hin;
             [contradiction |].
           destruct Hin as [[= <-] | []]. exists avg. split; [now left |].
           now apply Qgtb_lt.
        -- rewrite Hedge in Hin. destruct (voiceActive g); simpl in Hin;
             contradiction.
      * rewrite Hedge in Hin. destruct (voiceActive g); simpl in Hin;
          [destruct Hin as [[=] | []] | contradiction].
    + destruct (IHr t Hin) as (avg & Ha & Hq). exists avg. split; [now right | exact Hq].
    + destruct e as [now avg | now id]; simpl in *.
      * destruct (Qgtb avg (threshold sensitivity)) eqn:Hq;
          rewrite Hedge in Hin; destruct (voiceActive g); simpl in Hin;
          try contradiction; destruct Hin as [[=] | []].
      * rewrite Hedge in Hin. destruct (voiceActive g); simpl in Hin;
          [| contradiction].
        destruct Hin as [[= <-] | []]. exists id. now left.
    + destruct (IHf t Hin) as (id & Hid). exists id. now right.
Qed.

(** A timeout that runs is due no sooner than 600 ms after every frame
    above the threshold that came before it. *)
Lemma exec_timing (evs : list Event) :
  forall (hist : list Event) (c : Z) (g : Detector) (es : list Edge) (fin : Detector),
    settled g ->
    (forall e, In e hist -> timeOf e <= c) ->
    (forall id due ta avg,
        In (id, due) (pending g) -> In (Frame ta avg) hist ->
        (threshold sensitivity < avg)%Q -> ta + 600 <= due) ->
    exec sensitivity c g evs = Some (es, fin) ->
    forall pre tf id post,
      evs = (pre ++ Timeout tf id :: post)%list ->
      forall ta avg,
        In (Frame ta avg) (hist ++ pre)%list ->
        (threshold sensitivity < avg)%Q -> ta + 600 <= tf.
Proof.
  induction evs as [| e evs IH];
    intros hist c g es fin Hg Hclock Hdue H pre tf id post Heq ta avg Hin Hq.
  - destruct pre; discriminate.
  - apply exec_cons in H. destruct H as (Hc & g' & es' & Hstep & Hrest & _).
    destruct pre as [| e0 pre]; simpl in Heq; injection Heq as -> ->.
    + rewrite List.app_nil_r in Hin.
      destruct (timeout_step tf id g g' Hg Hstep) as (due & Hp & Hle & _).
      assert (ta + 600 <= due); [| lia].
      apply (Hdue id due ta avg); [rewrite Hp; now left | exact Hin | exact Hq].
    + apply (IH (hist ++ [e0])%list (timeOf e0) g' es' fin
                (step_settled g g' e0 Hg Hstep)) with (pre := pre) (id := id)
                (post := post) (avg := avg); try reflexivity; try assumption.
      * intros e He. apply List.in_app_or in He.
        destruct He as [He | [<- | []]]; [| lia].
        specialize (Hclock e He). lia.
      * intros id' due' ta' avg' Hpend Hhist Hq'.
        apply List.in_app_or in Hhist.
        destruct e0 as [now a | now id0].
        -- simpl in Hstep. injection Hstep as <-.
           destruct (Qlt_le_dec (threshold sensitivity) a) as [Habove | Hbelow].
           ++ destruct (analyze_above now a g Habove) as (_ & _ & Hnone).
              rewrite (Hnone Hg) in Hpend. destruct Hpend.
           ++ assert (Hold : In (Frame ta' avg') hist).
              { destruct Hhist as [Hh | [[= -> ->] | []]]; [exact Hh |].
                exfalso. apply (Qlt_not_le _ _ Hq'), Hbelow. }
              destruct (analyze_below now a g Hbelow) as [Harm Hkeep].
              destruct (voiceActive g) eqn:Ha;
                [destruct (silenceTimerRef g) eqn:Hr |].
              ** rewrite Hkeep in Hpend by (right; discriminate).
                 now apply (Hdue id' due' ta' avg').
              ** rewrite (Harm eq_refl eq_refl) in Hpend. simpl in Hpend.
                 destruct Hpend as [[= <- <-] | Hpend].
                 --- specialize (Hclock _ Hold). simpl in Hclock, Hc. lia.
                 --- now apply (Hdue id' due' ta' avg').
              ** rewrite Hkeep in Hpend by now left.
                 now apply (Hdue id' due' ta' avg').
        -- destruct (timeout_step now id0 g g' Hg Hstep) as (due & _ & _ & _ & ->).
           destruct Hpend.
      * rewrite <- List.app_assoc. exact Hin.
Qed.

(** While the detector is inactive with nothing pending, frames at or below
    the threshold change nothing and no timeout can run. *)
Lemma exec_quiet (evs : list Event) :
  forall (c : Z) (g : Detector) (es : list Edge) (fin : Detector),
    voiceActive g = false -> pending g = [] ->
    List.forallb (fun e => negb (isAbove sensitivity e)) evs = true ->
    exec sensitivity c g evs = Some (es, fin) ->
    es = [] /\ fin = g.
Proof.
  induction evs as [| e evs IH]; intros c g es fin Ha Hp Hq H.
  - simpl in H. now injection H as <- <-.
  - apply exec_cons in H. destruct H as (_ & g' & es' & Hstep & Hrest & ->).
    simpl in Hq. apply andb_true_iff in Hq. destruct Hq as [He Hq].
    destruct e as [now avg | now id]; simpl in Hstep.
    + injection Hstep as <-. simpl in He. apply negb_true_iff, Qgtb_le in He.
      destruct (analyze_below now avg g He) as [_ Hkeep].
      rewrite Hkeep in * by now left.
      destruct (IH _ _ _ _ Ha Hp Hq Hrest) as [-> ->].
      rewrite Ha. now split.
    + rewrite Hp in Hstep. discriminate.
Qed.

(** Without a timeout an active detector stays active. *)
Lemma exec_burst (evs : list Event) :
  forall (c : Z) (g : Detector) (es : list Edge) (fin : Detector),
    voiceActive g = true ->
    List.forallb (fun e => negb (isTimeout e)) evs = true ->
    exec sensitivity c g evs = Some (es, fin) ->
    es = [] /\ voiceActive fin = true.
Proof.
  induction evs as [| e evs IH]; intros c g es fin Ha Hq H.
  - simpl in H. now injection H as <- <-.
  - apply exec_cons in H. destruct H as (_ & g' & es' & Hstep & Hrest & ->).
    simpl in Hq. apply andb_true_iff in Hq. destruct Hq as [He Hq].
    destruct e as [now avg | now id]; [| discriminate].
    simpl in Hstep. injection Hstep as <-.
    assert (Ha' : voiceActive (analyze sensitivity now avg g) = true).
    { rewrite analyze_voiceActive, Ha. now destruct (Qgtb _ _). }
    destruct (IH _ _ _ _ Ha' Hq Hrest) as [-> Hfin].
    rewrite Ha, Ha'. now split.
Qed.

(** One crossing: quiet frames, a first frame above the threshold, a
    stretch without timeout, the timeout, and frames that stay at or
    below the threshold. *)
Lemma exec_one_crossing (c : Z) (quiet burst rest : list Event)
      (t0 tf : Z) (a0 : Q) (id : nat) (es : list Edge) (fin : Detector) :
  List.forallb (fun e => negb (isAbove sensitivity e)) quiet = true ->
  (threshold sensitivity < a0)%Q ->
  List.forallb (fun e => negb (isTimeout e)) burst = true ->
  List.forallb (fun e => negb (isAbove sensitivity e)) rest = true ->
  exec sensitivity c idle
       (quiet ++ Frame t0 a0 :: burst ++ Timeout tf id :: rest)%list
  = Some (es, fin) ->
  es = [Rising t0; Falling tf]
  /\ voiceActive fin = false
  /\ (forall ta avg,
        In (Frame ta avg) (Frame t0 a0 :: burst) ->
        (threshold sensitivity < avg)%Q -> ta + 600 <= tf).
Proof.
  intros Hquiet Ha0 Hburst Hrest H.
  assert (Htime : forall ta avg,
             In (Frame ta avg) (Frame t0 a0 :: burst) ->
             (threshold sensitivity < avg)%Q -> ta + 600 <= tf).
  { intros ta avg Hin Hq.
    refine (exec_timing _ [] c idle es fin settled_idle _ _ H
                         (quiet ++ Frame t0 a0 :: burst)%list tf id rest _
                         ta avg _ Hq).
    - intros e [].
    - intros ? ? ? ? [].
    - now rewrite <- List.app_assoc.
    - simpl. apply List.in_or_app. now right. }
  apply exec_app in H. destruct H as (es1 & g1 & es2 & H1 & H2 & ->).
  destruct (exec_quiet quiet c idle es1 g1 eq_refl eq_refl Hquiet H1) as [-> ->].
  apply exec_cons in H2. destruct H2 as (_ & g2 & es3 & Hstep & H3 & ->).
  simpl in Hstep. injection Hstep as <-.
  destruct (analyze_above t0 a0 idle Ha0) as (Hact & _ & _).
  pose proof (analyze_settled t0 a0 idle settled_idle) as Hset.
  rewrite Hact. simpl timeOf in *.
  apply exec_app in H3. destruct H3 as (es4 & g4 & es5 & H4 & H5 & ->).
  destruct (exec_burst _ _ _ _ _ Hact Hburst H4) as [-> Hact4].
  pose proof (exec_settled _ _ _ _ _ Hset H4) as Hset4.
  apply exec_cons in H5. destruct H5 as (_ & g5 & es6 & Hstep5 & H6 & ->).
  destruct (timeout_step tf id g4 g5 Hset4 Hstep5) as (due & _ & _ & _ & ->).
  destruct (exec_quiet rest tf (mkDetector false (silenceTimerRef g4) [] (nextId g4))
                       es6 fin eq_refl eq_refl Hrest H6) as [-> ->].
  rewrite Hact4. simpl. repeat split. exact Htime.
Qed.

End VoiceActivity.

Section VoiceActivityEdges.
Import Teleprompter.

(** C4: for a sensitivity [s] from 1 to 100 the threshold is
    55 - 0.4 s.  A frame whose average is above it makes the detector active
    in that frame and leaves no timeout pending.  A frame at or below it
    arms one timeout, due 600 ms later, when the detector is active and no
    timeout is pending, and changes nothing otherwise, so that an active
    detector below the threshold always has its one timeout pending.  In
    every run
    from the idle detector a rising edge is at the time of a frame above the
    threshold, a falling edge is a timeout, and a timeout runs no sooner
    than 600 ms after every earlier frame above the threshold; a run
    with one crossing has exactly the two edges. *)
Theorem voice_activity_edges (s : Z) :
  1 <= s <= 100 ->
  ((threshold s == 55 - 0.4 * inject_Z s)%Q
   /\ (15 <= threshold s)%Q /\ (threshold s <= 54.6)%Q)
  /\ (forall now avg g,
         (threshold s < avg)%Q ->
         voiceActive (analyze s now avg g) = true
         /\ silenceTimerRef (analyze s now avg g) = None
         /\ (settled g -> pending (analyze s now avg g) = []))
  /\ (forall now avg g,
         (avg <= threshold s)%Q -> settled g ->
         (voiceActive g = true -> silenceTimerRef g = None ->
          voiceActive (analyze s now avg g) = true
          /\ pending (analyze s now avg g) = [(nextId g, now + 600)])
         /\ (voiceActive g = false \/ silenceTimerRef g <> None ->
             analyze s now avg g = g)
         /\ (voiceActive g = true ->
             exists id due, pending (analyze s now avg g) = [(id, due)]))
  /\ (forall c evs es fin,
         exec s c idle evs = Some (es, fin) ->
         settled fin
         /\ (forall t, In (Rising t) es ->
                       exists avg, In (Frame t avg) evs /\ (threshold s < avg)%Q)
         /\ (forall t, In (Falling t) es -> exists id, In (Timeout t id) evs)
         /\ (forall pre tf id post,
                evs = (pre ++ Timeout tf id :: post)%list ->
                forall ta avg,
                  In (Frame ta avg) pre -> (threshold s < avg)%Q ->
                  ta + 600 <= tf))
  /\ (forall c quiet t0 a0 burst tf id rest es fin,
         List.forallb (fun e => negb (isAbove s e)) quiet = true ->
         (threshold s < a0)%Q ->
         List.forallb (fun e => negb (isTimeout e)) burst = true ->
         List.forallb (fun e => negb (isAbove s e)) rest = true ->
         exec s c idle (quiet ++ Frame t0 a0 :: burst ++ Timeout tf id :: rest)%list
         = Some (es, fin) ->
         es = [Rising t0; Falling tf]
         /\ voiceActive fin = false
         /\ (forall ta avg,
               In (Frame ta avg) (Frame t0 a0 :: burst) ->
               (threshold s < avg)%Q -> ta + 600 <= tf)).
Proof.
  intros Hs.
  split; [split; [apply threshold_value | apply threshold_range, Hs] |].
  split; [intros now avg g; apply analyze_above |].
  split.
  { intros now avg g Hq Hg.
    destruct (analyze_below s now avg g Hq) as [Harm Hkeep].
    split; [| split; [exact Hkeep |]].
    - intros Ha Hr. rewrite (Harm Ha Hr). cbn.
      destruct Hg as [[-> _] | (id & due & _ & Hr' & _)]; [now split | congruence].
    - intros Ha. destruct Hg as [[Hp Hclear] | (id & due & Hp & Hr & _)].
      + rewrite (Harm Ha (Hclear Ha)), Hp. cbn. now eexists _, _.
      + rewrite Hkeep by (right; congruence). now exists id, due. }
  split.
  { intros c evs es fin H.
    split; [apply (exec_settled s evs c idle es fin (settled_idle) H) |].
    destruct (exec_edges s evs c idle es fin H) as [Hr Hf].
    split; [exact Hr |]. split; [exact Hf |].
    intros pre tf id post Heq ta avg Hin Hq.
    refine (exec_timing s evs [] c idle es fin settled_idle _ _ H
                         pre tf id post Heq ta avg Hin Hq).
    - intros e [].
    - intros ? ? ? ? []. }
  intros c quiet t0 a0 burst tf id rest es fin.
  apply exec_one_crossing.
Qed.

Lemma voice_activity_edges_witness :
  (threshold 20 == 55 - 0.4 * inject_Z 20)%Q
  /\ exists es fin,
      exec 20 0 idle
           [Frame 0 10; Frame 16 60; Frame 32 10; Frame 48 52; Frame 64 10;
            Timeout 664 1; Frame 680 3]
      = Some (es, fin)
      /\ es = [Rising 16; Falling 664]
      /\ voiceActive fin = false.
Proof.
  destruct (voice_activity_edges 20 ltac:(lia)) as ((Hthr & _) & _ & _ & _ & Hone).
  split; [exact Hthr |].
  eexists. eexists. split; [reflexivity |].
  destruct (Hone 0 [Frame 0 10] 16 60%Q [Frame 32 10; Frame 48 52; Frame 64 10]
                 664 1%nat [Frame 680 3] _ _
                 eq_refl eq_refl eq_refl eq_refl eq_refl) as (He & Hf & _).
  split; [exact He | exact Hf].
Defined.

End VoiceActivityEdges.

(* ================================================================== *)
(** * Further properties of the handlers *)

(* ------------------------------------------------------------------ *)
(** ** Exposure settings and the duration display *)

Section Exposure.
Import ControlPanel.

(** X1: [adjustISO] keeps the ISO between 100 and 25600 whatever the
    step, adds the step when the sum is in that range and stops at the
    nearer bound when it is not, leaves the other settings alone, keeps
    a multiple of 100 a multiple of 100, and a step that stays in range
    is undone by the opposite step. *)
Theorem adjustISO_clamps (delta : Z) (s : CameraSettings) :
  100 <= iso (adjustISO delta s) <= 25600
  /\ (100 <= iso s + delta <= 25600 -> iso (adjustISO delta s) = iso s + delta)
  /\ (iso s + delta < 100 -> iso (adjustISO delta s) = 100)
  /\ (25600 < iso s + delta -> iso (adjustISO delta s) = 25600)
  /\ (100 <= iso s <= 25600 -> 100 <= iso s + delta <= 25600 ->
      iso (adjustISO (- delta) (adjustISO delta s)) = iso s)
  /\ (iso s mod 100 = 0 -> delta mod 100 = 0 ->
      iso (adjustISO delta s) mod 100 = 0)
  /\ aperture (adjustISO delta s) = aperture s
  /\ shutterSpeed (adjustISO delta s) = shutterSpeed s
  /\ wb (adjustISO delta s) = wb s.
Proof.
  unfold adjustISO. cbn [iso aperture shutterSpeed wb].
  repeat split; try lia.
  intros Hs Hd.
  destruct (Z.max_spec 100 (Z.min 25600 (iso s + delta))) as [[_ ->] | [_ ->]];
    [| reflexivity].
  destruct (Z.min_spec 25600 (iso s + delta)) as [[_ ->] | [_ ->]];
    [reflexivity |].
  rewrite Z.add_mod, Hs, Hd by lia. reflexivity.
Qed.

Lemma toFixed1_tenth (x : Q) (m : Z) :
  (x == m # 10)%Q -> toFixed1 x = m # 10.
Proof.
  intros H. unfold toFixed1. f_equal.
  assert (E : (x * 10 + (1 # 2) == (20 * m + 10) # 20)%Q).
  { rewrite H. unfold Qeq, Qplus, Qmult. simpl. lia. }
  rewrite (Qfloor_comp _ _ E). unfold Qfloor.
  symmetry. apply (Z.div_unique _ 20 m 10); lia.
Qed.

Lemma clamp_tenth (x : Q) (k : Z) :
  (x == k # 10)%Q ->
  (Qmax 1.4 (Qmin 22 x) == Z.max 14 (Z.min 220 k) # 10)%Q.
Proof.
  intros H.
  destruct (Q.min_spec 22 x) as [[Hlt ->] | [Hle ->]].
  - rewrite H in Hlt.
    destruct (Q.max_spec 1.4 22) as [[_ ->] | [Habs _]];
      [| now exfalso].
    revert Hlt. unfold Qlt, Qeq. simpl. lia.
  - rewrite H in Hle.
    destruct (Q.max_spec 1.4 x) as [[Hlt ->] | [Hge ->]].
    + rewrite H in Hlt |- *. revert Hle Hlt. unfold Qle, Qlt, Qeq. simpl. lia.
    + rewrite H in Hge. revert Hle Hge. unfold Qle, Qeq. simpl. lia.
Qed.

(** X2: when the aperture is a multiple of 0.1 between 1.4 and 22, the
    + button gives the next multiple of 0.1, stopping at 22, and the -
    button the previous one, stopping at 1.4; the other settings are
    left alone. *)
Theorem adjustAperture_steps (k : Z) (s : CameraSettings) :
  14 <= k <= 220 ->
  (aperture s == k # 10)%Q ->
  aperture (adjustAperture 0.1 s) = Z.min 220 (k + 1) # 10
  /\ aperture (adjustAperture (-0.1) s) = Z.max 14 (k - 1) # 10
  /\ iso (adjustAperture 0.1 s) = iso s
  /\ shutterSpeed (adjustAperture 0.1 s) = shutterSpeed s
  /\ wb (adjustAperture 0.1 s) = wb s.
Proof.
  intros Hk Ha. unfold adjustAperture. cbn [iso aperture shutterSpeed wb].
  repeat split.
  - apply toFixed1_tenth.
    rewrite (clamp_tenth _ (k + 1)).
    + unfold Qeq. simpl. lia.
    + rewrite Ha. unfold Qeq, Qplus. simpl. lia.
  - apply toFixed1_tenth.
    rewrite (clamp_tenth _ (k - 1)).
    + unfold Qeq. simpl. lia.
    + rewrite Ha. unfold Qeq, Qplus. simpl. lia.
Qed.

Lemma adjustAperture_steps_witness :
  aperture (adjustAperture 0.1 (mkSettings 800 2.8 "1/50" "5600K")) = 29 # 10
  /\ aperture (adjustAperture (-0.1) (mkSettings 800 2.8 "1/50" "5600K")) = 27 # 10.
Proof.
  destruct (adjustAperture_steps 28 (mkSettings 800 2.8 "1/50" "5600K")
              ltac:(lia) ltac:(reflexivity)) as (Hup & Hdown & _).
  split; [exact Hup | exact Hdown].
Defined.

End Exposure.

Section DurationDisplay.
Import JS Teleprompter.
Local Open Scope string_scope.

Lemma append_same_length_inj (a b c d : string) :
  String.length a = String.length b ->
  a ++ c = b ++ d -> a = b /\ c = d.
Proof.
  revert b. induction a as [| x a IH]; intros [| y b] Hlen H;
    simpl in *; try discriminate.
  - now split.
  - injection H as -> H. injection Hlen as Hlen.
    destruct (IH b Hlen H) as [-> ->]. now split.
Qed.

(** Two-digit fields print differently for different values, checked
    over all pairs. *)
Lemma pad2_distinct_check :
  List.forallb
    (fun i => List.forallb
                (fun j => implb (pad2 (Z.of_nat i) =? pad2 (Z.of_nat j))
                                (i =? j)%nat)
                (List.seq 0 100))
    (List.seq 0 100)
  = true.
Proof. vm_compute. reflexivity. Qed.

Lemma pad2_inj (i j : Z) :
  (0 <= i < 100)%Z -> (0 <= j < 100)%Z -> pad2 i = pad2 j -> i = j.
Proof.
  intros Hi Hj H.
  pose proof pad2_distinct_check as Hc.
  rewrite List.forallb_forall in Hc.
  specialize (Hc (Z.to_nat i)). rewrite List.forallb_forall in Hc.
  specialize (Hc ltac:(apply List.in_seq; lia) (Z.to_nat j)
                 ltac:(apply List.in_seq; lia)).
  rewrite !Z2Nat.id, H, String.eqb_refl in Hc by lia.
  simpl in Hc. apply Nat.eqb_eq in Hc. lia.
Qed.

(** X3: a duration under 100 minutes is shown with five characters,
    two digits of minutes, a colon and two digits of seconds, and two
    different durations are never shown the same. *)
Theorem formatTime_under_100_minutes (a b : Z) :
  (0 <= a < 6000)%Z -> (0 <= b < 6000)%Z ->
  formatTime a = pad2 (a / 60) ++ ":" ++ pad2 (a mod 60)
  /\ String.length (pad2 (a / 60)) = 2%nat
  /\ String.length (pad2 (a mod 60)) = 2%nat
  /\ String.length (formatTime a) = 5%nat
  /\ (formatTime a = formatTime b -> a = b).
Proof.
  intros Ha Hb.
  assert (Hrem : forall x, (0 <= x)%Z -> Z.rem x 60 = (x mod 60)%Z)
    by (intros x Hx; apply Z.rem_mod_nonneg; lia).
  assert (Hq : forall x, (0 <= x < 6000)%Z -> (0 <= x / 60 <= 99)%Z).
  { intros x Hx. split; [apply Z.div_pos; lia |].
    assert (x / 60 < 100)%Z by (apply Z.div_lt_upper_bound; lia). lia. }
  assert (Hm : forall x, (0 <= x mod 60 <= 99)%Z).
  { intros x. pose proof (Z.mod_pos_bound x 60 ltac:(lia)). lia. }
  unfold formatTime. rewrite !Hrem by lia.
  split; [reflexivity |].
  split; [apply pad2_length, Hq, Ha |].
  split; [apply pad2_length, Hm |].
  split.
  - rewrite !string_length_append, !pad2_length by auto. reflexivity.
  - intros H.
    apply append_same_length_inj in H;
      [| rewrite !pad2_length by auto; reflexivity].
    destruct H as [Hmin Hsec]. injection Hsec as Hsec.
    apply pad2_inj in Hmin; [| pose proof (Hq a Ha); lia | pose proof (Hq b Hb); lia].
    apply pad2_inj in Hsec; [| pose proof (Hm a); lia | pose proof (Hm b); lia].
    rewrite (Z.div_mod a 60), (Z.div_mod b 60) by lia. lia.
Qed.

Lemma formatTime_under_100_minutes_witness :
  formatTime 65 = "01:05" /\ String.length (formatTime 65) = 5%nat.
Proof.
  destruct (formatTime_under_100_minutes 65 0 ltac:(lia) ltac:(lia))
    as (_ & _ & _ & Hlen & _).
  split; [reflexivity | exact Hlen].
Defined.

End DurationDisplay.

(* ------------------------------------------------------------------ *)
(** ** The level history, the peak and the clap counter *)

Section History.
Import AudioMonitor.

Lemma pushHistory_drop (prev : list HistoryPoint) (item : HistoryPoint) :
  (List.length prev <= 50)%nat ->
  pushHistory prev item
  = drop (List.length prev + 1 - 50) (prev ++ [item])%list.
Proof.
  intros H. unfold pushHistory. cbv zeta.
  rewrite List.length_app. cbn [List.length].
  destruct (Nat.ltb_spec 50 (List.length prev + 1)).
  - replace (List.length prev + 1 - 50)%nat with 1%nat by lia.
    now destruct (prev ++ [item])%list.
  - now replace (List.length prev + 1 - 50)%nat with 0%nat by lia.
Qed.

(** X4: the level history is a window over the points pushed into it:
    starting from a history of at most 50 points, after any number of
    pushes it holds the last 50 of all points, in order, or all of them
    while there are fewer. *)
Theorem history_keeps_last_50 (prev items : list HistoryPoint) :
  (List.length prev <= 50)%nat ->
  fold_left pushHistory items prev
  = drop (List.length (prev ++ items)%list - 50) (prev ++ items)%list
  /\ List.length (fold_left pushHistory items prev)
     = Nat.min 50 (List.length prev + List.length items).
Proof.
  revert prev. induction items as [| x l IH]; intros prev H.
  - cbn [fold_left]. rewrite List.app_nil_r, Nat.add_0_r.
    replace (List.length prev - 50)%nat with 0%nat by lia.
    split; [reflexivity | cbn [drop]; lia].
  - cbn [fold_left].
    assert (Hp : pushHistory prev x
                 = drop (List.length prev + 1 - 50) (prev ++ [x])%list)
      by now apply pushHistory_drop.
    assert (Hlen : (List.length (pushHistory prev x) <= 50)%nat).
    { rewrite Hp, length_drop, List.length_app. cbn [List.length]. lia. }
    destruct (IH _ Hlen) as [IH1 IH2]. split.
    + rewrite IH1, Hp.
      rewrite <- drop_app_le
        by (rewrite List.length_app; cbn [List.length]; lia).
      rewrite drop_drop, <- List.app_assoc. cbn [app].
      f_equal. rewrite length_drop, !List.length_app. cbn [List.length]. lia.
    + rewrite IH2, Hp, length_drop, List.length_app. cbn [List.length]. lia.
Qed.

Lemma history_keeps_last_50_witness :
  fold_left pushHistory [mkPoint 3 30; mkPoint 4 40] [mkPoint 1 10; mkPoint 2 20]
  = [mkPoint 1 10; mkPoint 2 20; mkPoint 3 30; mkPoint 4 40].
Proof.
  exact (proj1 (history_keeps_last_50 [mkPoint 1 10; mkPoint 2 20]
                  [mkPoint 3 30; mkPoint 4 40] ltac:(simpl; lia))).
Defined.

End History.

Section Peak.
Import AudioMonitor.

Lemma peak_fold_ge (dataArray : list Z) (acc : Q) :
  (acc <= fold_left (fun peak d =>
                       let absX := Qabs (sample d) in
                       if Qgtb absX peak then absX else peak)
                    dataArray acc)%Q.
Proof.
  revert acc. induction dataArray as [| d l IH]; intros acc; cbn [fold_left].
  - apply Qle_refl.
  - cbv zeta. destruct (Qgtb (Qabs (sample d)) acc) eqn:Hgt.
    + apply Qgtb_lt in Hgt.
      apply Qle_trans with (Qabs (sample d)); [now apply Qlt_le_weak | apply IH].
    + apply IH.
Qed.

Lemma sample_byte (d : Z) :
  0 <= d <= 255 -> ~ (1 < Qabs (sample d))%Q.
Proof.
  unfold sample, Qabs, Qlt, Qdiv, Qminus, Qplus, Qmult, Qopp, Qinv, inject_Z.
  simpl. lia.
Qed.

(** X5: on a buffer of bytes the peak is between 0 and 1, it is above
    the clap threshold 0.6 exactly when some byte is at most 51 or at
    least 205, and a buffer whose bytes all lie from 52 to 204 is not a
    clap whatever its length. *)
Theorem peak_of_bytes (dataArray : list Z) :
  Forall (fun d => 0 <= d <= 255) dataArray ->
  (0 <= peakOf dataArray <= 1)%Q
  /\ (Qgtb (peakOf dataArray) 0.6 = true
      <-> Exists (fun d => d <= 51 \/ 205 <= d) dataArray)
  /\ (Forall (fun d => 52 <= d <= 204) dataArray ->
      forall now lastClapTime,
        detectClap true (peakOf dataArray) now lastClapTime
        = (lastClapTime, false)).
Proof.
  intros Hb.
  assert (Hloud : (0.6 < peakOf dataArray)%Q
                  <-> Exists (fun d => d <= 51 \/ 205 <= d) dataArray).
  { unfold peakOf. rewrite peak_fold_gt. split.
    - intros [H | H]; [discriminate H |].
      apply List.Exists_exists in H. destruct H as (d & Hin & Hd).
      apply List.Exists_exists. exists d. split; [exact Hin | now apply sample_loud].
    - intros H. right.
      apply List.Exists_exists in H. destruct H as (d & Hin & Hd).
      apply List.Exists_exists. exists d. split; [exact Hin | now apply sample_loud]. }
  split; [split | split].
  - apply peak_fold_ge.
  - apply Qnot_lt_le. unfold peakOf. rewrite peak_fold_gt.
    intros [H | H]; [discriminate H |].
    apply List.Exists_exists in H. destruct H as (d & Hin & Hd).
    rewrite List.Forall_forall in Hb. exact (sample_byte d (Hb d Hin) Hd).
  - now rewrite Qgtb_lt.
  - intros Hq now lastClapTime. apply detectClap_quiet.
    apply Qnot_lt_le. rewrite Hloud. intros H.
    apply List.Exists_exists in H. destruct H as (d & Hin & Hd).
    rewrite List.Forall_forall in Hq. specialize (Hq d Hin). lia.
Qed.

Lemma peak_of_bytes_witness :
  (0 <= peakOf [128; 130; 40; 128]%Z <= 1)%Q
  /\ Qgtb (peakOf [128; 130; 40; 128]) 0.6 = true.
Proof.
  destruct (peak_of_bytes [128; 130; 40; 128]) as (Hr & Hl & _).
  - repeat constructor; lia.
  - split; [exact Hr |]. apply Hl.
    right; right; left. lia.
Defined.

End Peak.

Section ClapPairs.
Import AudioMonitor.

Lemma claps_potential (frames : list (Z * Q)) (lastClapTime : Z) :
  Forall (fun f => 800 <= fst f) frames ->
  (2 * snd (claps true frames lastClapTime)
   + armed (fst (claps true frames lastClapTime))
   <= loudFrames frames + armed lastClapTime)%nat.
Proof.
  revert lastClapTime.
  induction frames as [| [now peak] rest IH]; intros last Hf.
  - cbn. lia.
  - inversion Hf as [| ? ? Hnow Hrest]; subst. cbn [fst] in Hnow.
    cbn [claps]. unfold loudFrames. cbn [List.filter snd].
    destruct (detectClap true peak now last) as [t fired] eqn:Hd.
    specialize (IH t Hrest). unfold loudFrames in IH.
    destruct (claps true rest t) as [t' n] eqn:Hc.
    cbn [fst snd] in IH |- *.
    destruct (Qgtb peak 0.6) eqn:Hp.
    + apply Qgtb_lt in Hp. rewrite (detectClap_loud peak) in Hd by exact Hp.
      cbn [List.length].
      destruct (Z.leb_spec (now - last) 100).
      * injection Hd as <- <-. lia.
      * destruct (Z.ltb_spec (now - last) 800).
        -- injection Hd as <- <-.
           assert (armed last = 1%nat).
           { unfold armed. destruct (Z.eqb_spec last 0); [lia | reflexivity]. }
           change (armed 0) with 0%nat in IH. lia.
        -- injection Hd as <- <-.
           assert (armed now = 1%nat).
           { unfold armed. destruct (Z.eqb_spec now 0); [lia | reflexivity]. }
           lia.
    + apply Qgtb_le in Hp. rewrite detectClap_quiet in Hd by exact Hp.
      injection Hd as <- <-. lia.
Qed.

(** X6: a trigger takes two loud frames.  On a clock that is past
    800 ms (as [Date.now()] is) and with no clap stored, the number of
    triggers fired over any sequence of frames, doubled, is at most the
    number of frames whose peak is above 0.6; with the trigger switched
    off nothing fires and the stored time is kept. *)
Theorem claps_need_two_loud_frames (frames : list (Z * Q)) :
  Forall (fun f => 800 <= fst f) frames ->
  (2 * snd (claps true frames 0)
   <= List.length (List.filter (fun f => Qgtb (snd f) 0.6) frames))%nat
  /\ forall lastClapTime, claps false frames lastClapTime = (lastClapTime, 0%nat).
Proof.
  intros Hf. split.
  - pose proof (claps_potential frames 0 Hf) as H.
    unfold loudFrames in H. change (armed 0) with 0%nat in H. lia.
  - clear Hf. induction frames as [| [now peak] rest IH]; intros last.
    + reflexivity.
    + cbn [claps]. rewrite detectClap_off, IH. reflexivity.
Qed.

Lemma claps_need_two_loud_frames_witness :
  (2 * snd (claps true [(1000, 0.7%Q); (1300, 0.2%Q); (1500, 0.9%Q)]%Z 0%Z)
   <= 2)%nat.
Proof.
  exact (proj1 (claps_need_two_loud_frames
                  [(1000, 0.7%Q); (1300, 0.2%Q); (1500, 0.9%Q)]
                  ltac:(repeat constructor; simpl; lia))).
Defined.

End ClapPairs.

(* ------------------------------------------------------------------ *)
(** ** The list of audio inputs *)

Section Devices.
Import JS AudioMonitor.
Local Open Scope string_scope.

Lemma lowerChar_idem (c : ascii) : lowerChar (lowerChar c) = lowerChar c.
Proof. destruct c as [[] [] [] [] [] [] [] []]; reflexivity. Qed.

Lemma toLowerCase_idem (s : string) :
  toLowerCase (toLowerCase s) = toLowerCase s.
Proof.
  induction s as [| c s IH]; simpl; [reflexivity |].
  now rewrite lowerChar_idem, IH.
Qed.

Lemma toAudioDevice_label (d : MediaDeviceInfo) :
  label (toAudioDevice d) <> ""
  /\ (info_label d <> "" -> label (toAudioDevice d) = info_label d)
  /\ (isExternal (toAudioDevice d) = true ->
      label (toAudioDevice d) = info_label d).
Proof.
  unfold toAudioDevice. cbn [label isExternal].
  destruct (info_label d) as [| c l] eqn:E; cbn.
  - repeat split; [discriminate | congruence | discriminate].
  - repeat split. discriminate.
Qed.

(** X7: every entry of the device list built by [updateDevices] comes
    from an enumerated device of kind audioinput and has its id; its
    label is never empty, and is the device's own label when that is
    not empty; the external flag reads the device's own label without
    regard to case, so a device shown with the placeholder label is
    never flagged external. *)
Theorem audioInputs_entries (devs : list MediaDeviceInfo) (a : AudioDevice) :
  In a (audioInputs devs) ->
  label a <> ""
  /\ exists d,
       In d devs
       /\ info_kind d = "audioinput"
       /\ deviceId a = info_deviceId d
       /\ (info_label d <> "" -> label a = info_label d)
       /\ isExternal a = looksExternal (toLowerCase (info_label d))
       /\ (isExternal a = true -> label a = info_label d).
Proof.
  unfold audioInputs. rewrite List.in_map_iff.
  intros (d & <- & Hin). apply List.filter_In in Hin.
  destruct Hin as [Hin Hkind]. apply String.eqb_eq in Hkind.
  destruct (toAudioDevice_label d) as (Hne & Hown & Hext).
  split; [exact Hne |].
  exists d. repeat split; try assumption.
  unfold toAudioDevice, looksExternal. cbn [isExternal].
  now rewrite toLowerCase_idem.
Qed.

Lemma audioInputs_entries_witness :
  audioInputs [mkInfo "videoinput" "v1" "Capture Card";
               mkInfo "audioinput" "a1" "Hollyland Lark M1"]
  = [mkAudioDevice "a1" "Hollyland Lark M1" true]
  /\ label (mkAudioDevice "a1" "Hollyland Lark M1" true) <> "".
Proof.
  split; [reflexivity |].
  exact (proj1 (audioInputs_entries
                  [mkInfo "videoinput" "v1" "Capture Card";
                   mkInfo "audioinput" "a1" "Hollyland Lark M1"]
                  (mkAudioDevice "a1" "Hollyland Lark M1" true)
                  ltac:(left; reflexivity))).
Defined.

End Devices.

(* ------------------------------------------------------------------ *)
(** ** The live view: a second keying pass, and the no-signal text *)

Section LiveViewMore.
Import LiveView.

Lemma chromaKey_visited (data : ImageData) (k : nat) :
  (k mod 4 = 3 /\ k / 4 < List.length data / 4)%nat
  \/ (forall j, (0 <= j < 0 + List.length data / 4)%nat -> k <> (j * 4 + 3)%nat).
Proof.
  pose proof (Nat.div_mod_eq k 4) as Hk.
  pose proof (Nat.mod_upper_bound k 4 ltac:(lia)) as Hm.
  destruct (decide (k mod 4 = 3)%nat) as [H3 | H3];
    [destruct (decide (k / 4 < List.length data / 4)%nat) as [Hlt | Hge] |].
  - left. now split.
  - right. intros j Hj ->.
    rewrite Nat.div_add_l, (Nat.div_small 3 4) in Hge by lia. lia.
  - right. intros j Hj ->.
    rewrite Nat.add_comm, Nat.Div0.mod_add in H3. now apply H3.
Qed.

(** X8: a second pass of the keying loop over a keyed frame changes
    nothing. *)
Theorem chromaKey_twice (data : ImageData) :
  chromaKey (chromaKey data) = chromaKey data.
Proof.
  apply list_eq. intros k.
  pose proof (chromaKey_visited data k) as Hk.
  unfold chromaKey. rewrite keyLoop_length.
  set (n := (List.length data / 4)%nat) in *.
  pose proof (Nat.div_mod_eq (List.length data) 4) as Hlen.
  pose proof (Nat.mod_upper_bound (List.length data) 4 ltac:(lia)) as Hm.
  destruct Hk as [[H3 Hlt] | Hother].
  - pose proof (Nat.div_mod_eq k 4) as Hk.
    replace k with ((k / 4) * 4 + 3)%nat by lia.
    set (j := (k / 4)%nat) in *.
    assert (Hin : (j * 4 + 3 < List.length data)%nat) by lia.
    rewrite (keyLoop_alpha n 0 j (keyLoop n 0 data))
      by (rewrite ?keyLoop_length; lia).
    unfold rd.
    rewrite !(keyLoop_other n 0 (j * 4 + 0)) by (intros; lia).
    rewrite !(keyLoop_other n 0 (j * 4 + 1)) by (intros; lia).
    rewrite !(keyLoop_other n 0 (j * 4 + 2)) by (intros; lia).
    rewrite !(keyLoop_alpha n 0 j data) by lia. unfold rd. cbn [default].
    destruct (greenDominant _ _ _); reflexivity.
  - now rewrite keyLoop_other by exact Hother.
Qed.

(** X9: of the errors of [getUserMedia], only the two "not found" names
    and the two "not allowed" names get a message of their own; every
    other error is shown as NO SIGNAL with no second line, exactly as
    when there is no error at all. *)
Theorem noSignal_generic_is_silent (name : string) :
  (noSignalText (Some (classifyError name)) = noSignalText None
   <-> name <> "NotFoundError"%string /\ name <> "DevicesNotFoundError"%string
       /\ name <> "NotAllowedError"%string
       /\ name <> "PermissionDeniedError"%string)
  /\ (fst (noSignalText (Some (classifyError name))) = "NO CAMERA FOUND"%string
      <-> name = "NotFoundError"%string \/ name = "DevicesNotFoundError"%string)
  /\ (fst (noSignalText (Some (classifyError name))) = "PERMISSION DENIED"%string
      <-> name = "NotAllowedError"%string \/ name = "PermissionDeniedError"%string).
Proof.
  unfold classifyError.
  destruct (String.eqb_spec name "NotFoundError") as [-> | H1];
    [cbn; repeat split; intros; try tauto; try discriminate;
     try (now left); try (destruct H; discriminate) |].
  destruct (String.eqb_spec name "DevicesNotFoundError") as [-> | H2];
    [cbn; repeat split; intros; try tauto; try discriminate;
     try (now right); try (destruct H; discriminate) |].
  destruct (String.eqb_spec name "NotAllowedError") as [-> | H3];
    [cbn; repeat split; intros; try tauto; try discriminate;
     try (now left); try (destruct H; discriminate) |].
  destruct (String.eqb_spec name "PermissionDeniedError") as [-> | H4];
    [cbn; repeat split; intros; try tauto; try discriminate;
     try (now right); try (destruct H; discriminate) |].
  cbn. repeat split; intros; try tauto; try discriminate.
Qed.

End LiveViewMore.

(* ------------------------------------------------------------------ *)
(** ** The aligner: what it ignores, and what it cannot match *)

Section Normalization.
Import JS Teleprompter.
Local Open Scope string_scope.

Lemma isWordChar_lowerChar (c : ascii) :
  isWordChar (lowerChar c) = isWordChar c.
Proof. destruct c as [[] [] [] [] [] [] [] []]; reflexivity. Qed.

Lemma isSpace_lowerChar (c : ascii) : isSpace (lowerChar c) = isSpace c.
Proof. destruct c as [[] [] [] [] [] [] [] []]; reflexivity. Qed.

Lemma stripPunctuation_toLowerCase (s : string) :
  stripPunctuation (toLowerCase s) = toLowerCase (stripPunctuation s).
Proof.
  induction s as [| c s IH]; simpl; [reflexivity |].
  rewrite isWordChar_lowerChar, isSpace_lowerChar.
  destruct (isWordChar c || isSpace c); simpl; now rewrite IH.
Qed.

Lemma stripPunctuation_idem (s : string) :
  stripPunctuation (stripPunctuation s) = stripPunctuation s.
Proof.
  induction s as [| c s IH]; simpl; [reflexivity |].
  destruct (isWordChar c || isSpace c) eqn:E; simpl; rewrite ?E, IH;
    reflexivity.
Qed.

Lemma fuzzyMatch_toLowerCase (token spoken : string) :
  fuzzyMatch (toLowerCase token) spoken = fuzzyMatch token spoken.
Proof. unfold fuzzyMatch. now rewrite toLowerCase_idem. Qed.

Lemma fuzzyMatch_stripPunctuation (token spoken : string) :
  fuzzyMatch (stripPunctuation token) spoken = fuzzyMatch token spoken.
Proof.
  unfold fuzzyMatch.
  now rewrite <- stripPunctuation_toLowerCase, stripPunctuation_idem.
Qed.

Lemma lookup_map_default (f : string -> string) (ws : list string) (i : nat) :
  f "" = "" ->
  default "" (List.map f ws !! i) = f (default "" (ws !! i)).
Proof.
  intros Hf. revert i. induction ws as [| w ws IH]; intros i.
  - destruct i; cbn; now rewrite Hf.
  - destruct i as [| i]; [reflexivity | apply IH].
Qed.

Lemma scan_map (f : string -> string) (ws : list string) (spoken : string)
      (n i : nat) :
  f "" = "" ->
  (forall w, fuzzyMatch (f w) spoken = fuzzyMatch w spoken) ->
  scan (List.map f ws) spoken n i = scan ws spoken n i.
Proof.
  intros Hf Hm. revert i. induction n as [| n IH]; intros i; simpl.
  - reflexivity.
  - now rewrite lookup_map_default, Hm, IH.
Qed.

(** X10: on a script written in characters below code 256 (ASCII and
    Latin-1, the strings of this model) the aligner does not see the
    capitals or the punctuation of the script: a script whose tokens are
    lower-cased, or stripped of every character that is neither a word
    character nor whitespace, gives the same result for every cursor and
    transcript.  Beyond code 255 lower-casing can turn a character that
    is stripped into a word character (the Kelvin sign becomes k), and
    the second equation is not claimed there. *)
Theorem matchTextToScript_ignores_case_and_punctuation
        (ws : list string) (cur : nat) (transcript : string) :
  matchTextToScript (List.map toLowerCase ws) cur transcript
  = matchTextToScript ws cur transcript
  /\ matchTextToScript (List.map stripPunctuation ws) cur transcript
     = matchTextToScript ws cur transcript.
Proof.
  unfold matchTextToScript. cbv zeta. rewrite !List.length_map. split.
  - apply scan_map; [reflexivity | intros w; apply fuzzyMatch_toLowerCase].
  - apply scan_map; [reflexivity | intros w; apply fuzzyMatch_stripPunctuation].
Qed.

(** X11: a token that keeps at most three characters after
    normalization is matched only by exactly those characters; so no
    spoken word that holds a character outside the word characters and
    whitespace (an accented letter, an apostrophe) can reach it, not
    even the token's own lower-case form. *)
Theorem short_token_needs_the_exact_word (token spoken : string) :
  (String.length (stripPunctuation (toLowerCase token)) <= 3)%nat ->
  (fuzzyMatch token spoken = true
   <-> spoken = stripPunctuation (toLowerCase token))
  /\ (stripPunctuation spoken <> spoken -> fuzzyMatch token spoken = false).
Proof.
  intros Hlen.
  assert (Hiff : fuzzyMatch token spoken = true
                 <-> spoken = stripPunctuation (toLowerCase token)).
  { rewrite fuzzyMatch_iff. split.
    - intros [H | [H _]]; [now symmetry | lia].
    - intros ->. now left. }
  split; [exact Hiff |].
  intros Hne. apply not_true_is_false. intros E.
  apply Hne. apply Hiff in E. rewrite E.
  apply stripPunctuation_idem.
Qed.

Lemma short_token_needs_the_exact_word_witness :
  fuzzyMatch "No!" "no!" = false /\ fuzzyMatch "No!" "no" = true.
Proof.
  destruct (short_token_needs_the_exact_word "No!" "no!" ltac:(simpl; lia))
    as [_ Hnever].
  split; [apply Hnever; discriminate | reflexivity].
Defined.

End Normalization.

(* ------------------------------------------------------------------ *)
(** ** The recognitions of a mounted teleprompter *)

Section Session.
Import JS Teleprompter SmartTracking.
Local Open Scope string_scope.

(** One event moves the cursor, if at all, into the window of the
    recognition that delivers it. *)
Lemma onresultLoop_window (h : Closure) (resultIndex : nat)
      (results : list Result) (cursor : nat) :
  onresultLoop h resultIndex results cursor = cursor
  \/ ((seenIndex h <= onresultLoop h resultIndex results cursor
                    < seenIndex h + 50)%nat
      /\ (onresultLoop h resultIndex results cursor
          < List.length (seenWords h))%nat).
Proof.
  unfold onresultLoop. generalize (drop resultIndex results).
  intros l. revert cursor.
  induction l as [| r l IH]; intros cursor; cbn [fold_left].
  - now left.
  - destruct (accepted r); [| apply IH].
    destruct (matchTextToScript (seenWords h) (seenIndex h)
                (trim (toLowerCase (transcript r)))) as [i |] eqn:E;
      [| apply IH].
    apply matchTextToScript_forward in E.
    change (default cursor (Some i)) with i.
    destruct (IH i) as [-> | Hw]; [right; lia | now right].
Qed.

Lemma matchTextToScript_past_the_end (ws : list string) (cur : nat)
      (transcript : string) :
  (List.length ws <= cur)%nat -> matchTextToScript ws cur transcript = None.
Proof.
  intros H. unfold matchTextToScript, searchWindow. cbv zeta.
  now replace (Nat.min (List.length ws) (cur + 50) - cur)%nat with 0%nat by lia.
Qed.

Lemma onresultLoop_past_the_end (h : Closure) (resultIndex : nat)
      (results : list Result) (cursor : nat) :
  (List.length (seenWords h) <= seenIndex h)%nat ->
  onresultLoop h resultIndex results cursor = cursor.
Proof.
  intros H. unfold onresultLoop. generalize (drop resultIndex results).
  intros l. induction l as [| r l IH]; cbn [fold_left]; [reflexivity |].
  rewrite matchTextToScript_past_the_end by exact H.
  change (default cursor None) with cursor.
  destruct (accepted r); exact IH.
Qed.

Lemma effect_fields (c : Component) :
  text (effect c) = text c
  /\ currentWordIndex (effect c) = currentWordIndex c
  /\ (recognitions (effect c) = recognitions c
      \/ recognitions (effect c)
         = (recognitions c
              ++ [mkClosure (words (text c)) (currentWordIndex c)])%list).
Proof.
  unfold effect. destruct (mode c), (isListening c); cbn; auto.
Qed.

Lemma effect_bounded (c : Component) :
  (currentWordIndex c <= 49 * List.length (recognitions c))%nat ->
  (forall k h, recognitions c !! k = Some h -> (seenIndex h <= 49 * k)%nat) ->
  (currentWordIndex (effect c) <= 49 * List.length (recognitions (effect c)))%nat
  /\ (forall k h, recognitions (effect c) !! k = Some h ->
                  (seenIndex h <= 49 * k)%nat).
Proof.
  intros Hc Hh. destruct (effect_fields c) as (_ & -> & [-> | ->]).
  - now split.
  - rewrite List.length_app. cbn [List.length]. split; [lia |].
    intros k h Hk. apply lookup_app_Some in Hk.
    destruct Hk as [Hk | [Hge Hk]]; [now apply Hh |].
    destruct (k - List.length (recognitions c))%nat; [| discriminate].
    injection Hk as <-. cbn [seenIndex]. lia.
Qed.

Lemma input_bounded (c : Component) (i : Input) :
  (currentWordIndex c <= 49 * List.length (recognitions c))%nat ->
  (forall k h, recognitions c !! k = Some h -> (seenIndex h <= 49 * k)%nat) ->
  (currentWordIndex (input c i) <= 49 * List.length (recognitions (input c i)))%nat
  /\ (forall k h, recognitions (input c i) !! k = Some h ->
                  (seenIndex h <= 49 * k)%nat).
Proof.
  intros Hc Hh.
  destruct i as [value | | m | k resultIndex results]; cbn [input].
  - destruct (text c =? value); [now split |]. now apply effect_bounded.
  - now apply effect_bounded.
  - destruct (sameMode (mode c) m); [now split |]. now apply effect_bounded.
  - destruct (recognitions c !! k) as [h |] eqn:Hk; [| now split].
    cbn [currentWordIndex recognitions]. split; [| exact Hh].
    pose proof (Hh k h Hk) as Hs.
    pose proof (lookup_lt_Some _ _ _ Hk) as Hlt.
    destruct (onresultLoop_window h resultIndex results (currentWordIndex c))
      as [-> | [Hw _]]; [exact Hc | lia].
Qed.

Lemma run_bounded (inputs : list Input) (c : Component) :
  (currentWordIndex c <= 49 * List.length (recognitions c))%nat ->
  (forall k h, recognitions c !! k = Some h -> (seenIndex h <= 49 * k)%nat) ->
  (currentWordIndex (run inputs c)
   <= 49 * List.length (recognitions (run inputs c)))%nat
  /\ (forall k h, recognitions (run inputs c) !! k = Some h ->
                  (seenIndex h <= 49 * k)%nat).
Proof.
  unfold run. revert c.
  induction inputs as [| i inputs IH]; intros c Hc Hh; cbn [fold_left].
  - now split.
  - destruct (input_bounded c i Hc Hh) as [Hc' Hh']. now apply IH.
Qed.

(** X13: every recognition scans only the 50 tokens that start at the
    cursor of the render that created it, and [onend] keeps every
    recognition alive.  So, from the mounted component and through any
    sequence of edits, presses of the listening button, mode changes
    and result events of any recognition created so far: the
    recognition created [k]-th scans from an index of at most [49 k];
    an event moves the cursor, if at all, into the 50 tokens from that
    index and inside the script that recognition saw; and the cursor is
    at most 49 times the number of recognitions created.  While one
    recognition only has been created the cursor stays below 50. *)
Theorem cursor_bounded_by_recognitions
        (inputs : list Input) (script : string) :
  (currentWordIndex (run inputs (mount script))
   <= 49 * List.length (recognitions (run inputs (mount script))))%nat
  /\ (forall k h,
         recognitions (run inputs (mount script)) !! k = Some h ->
         (seenIndex h <= 49 * k)%nat)
  /\ (forall k h resultIndex results,
         recognitions (run inputs (mount script)) !! k = Some h ->
         currentWordIndex
           (input (run inputs (mount script)) (Results k resultIndex results))
         = currentWordIndex (run inputs (mount script))
         \/ ((seenIndex h
              <= currentWordIndex
                   (input (run inputs (mount script))
                          (Results k resultIndex results))
              < seenIndex h + 50)%nat
             /\ (currentWordIndex
                   (input (run inputs (mount script))
                          (Results k resultIndex results))
                 < List.length (seenWords h))%nat))
  /\ ((List.length (recognitions (run inputs (mount script))) <= 1)%nat ->
      (currentWordIndex (run inputs (mount script)) < 50)%nat).
Proof.
  destruct (run_bounded inputs (mount script)) as [Hc Hh].
  { cbn. lia. }
  { intros k h Hk. destruct k; discriminate Hk. }
  split; [exact Hc |]. split; [exact Hh |]. split.
  - intros k h resultIndex results Hk. cbn [input]. rewrite Hk.
    cbn [currentWordIndex]. apply onresultLoop_window.
  - intros Hone. lia.
Qed.

Lemma input_Edit (value : string) (c : Component) :
  text c <> value ->
  text (input c (Edit value)) = value
  /\ currentWordIndex (input c (Edit value)) = currentWordIndex c
  /\ (recognitions (input c (Edit value)) = recognitions c
      \/ recognitions (input c (Edit value))
         = (recognitions c
              ++ [mkClosure (words value) (currentWordIndex c)])%list).
Proof.
  intros Hne. cbn [input].
  destruct (String.eqb_spec (text c) value); [contradiction |].
  apply (effect_fields (mkComponent value (mode c) (isListening c)
                                    (currentWordIndex c) (recognitions c))).
Qed.

(** X14: an edit that leaves the script with no more tokens than the
    cursor keeps the cursor, and the recognition that this edit starts
    can never move it: whatever results that recognition delivers, the
    component stays as the edit left it, with every word of the new
    script drawn as spoken and none as the current word.  (The
    recognitions created before the edit still scan the script they
    saw.) *)
Theorem edit_past_the_end_starts_a_dead_recognition
        (value : string) (events : list (nat * list Result)) (c : Component) :
  text c <> value ->
  (List.length (words value) <= currentWordIndex c)%nat ->
  run (List.map (fun ev => Results (List.length (recognitions c))
                                   (fst ev) (snd ev))
                events)
      (input c (Edit value))
  = input c (Edit value)
  /\ text (input c (Edit value)) = value
  /\ currentWordIndex (input c (Edit value)) = currentWordIndex c
  /\ forall i, (i < List.length (words value))%nat ->
               isSpoken Smart (currentWordIndex c) i = true
               /\ isCurrent Smart (currentWordIndex c) i = false.
Proof.
  intros Hne Hlen.
  destruct (input_Edit value c Hne) as (Ht & Hc & Hr).
  split; [| split; [exact Ht | split; [exact Hc |]]].
  - generalize dependent (input c (Edit value)). intros c1 _ Hc Hr.
    unfold run. induction events as [| ev events IH];
      cbn [List.map fold_left]; [reflexivity |].
    assert (E : input c1 (Results (List.length (recognitions c))
                                  (fst ev) (snd ev)) = c1).
    { cbn [input].
      destruct (recognitions c1 !! List.length (recognitions c))
        as [h |] eqn:Hk; [| reflexivity].
      destruct Hr as [Hr | Hr]; rewrite Hr in Hk.
      - apply lookup_lt_Some in Hk. lia.
      - rewrite lookup_app_r, Nat.sub_diag in Hk by lia.
        injection Hk as <-.
        rewrite onresultLoop_past_the_end by exact Hlen.
        now destruct c1. }
    rewrite E. exact IH.
  - intros i Hi. unfold isSpoken, isCurrent. rewrite !andb_true_r. split.
    + apply Nat.ltb_lt. lia.
    + apply Nat.eqb_neq. lia.
Qed.

Lemma edit_past_the_end_starts_a_dead_recognition_witness :
  currentWordIndex
    (run [ToggleListening; Results 0 0 [mkResult true 0 "three"]]
         (mount "one two three two four"))
  = 2%nat
  /\ run [Results 1 0 [mkResult true 0 "alpha"];
          Results 1 0 [mkResult true 0 "beta"]]
         (input (run [ToggleListening; Results 0 0 [mkResult true 0 "three"]]
                     (mount "one two three two four"))
                (Edit "alpha beta"))
     = input (run [ToggleListening; Results 0 0 [mkResult true 0 "three"]]
                  (mount "one two three two four"))
             (Edit "alpha beta")
  /\ currentWordIndex
       (input (input (run [ToggleListening;
                           Results 0 0 [mkResult true 0 "three"]]
                          (mount "one two three two four"))
                     (Edit "alpha beta"))
              (Results 0 0 [mkResult true 0 "one"]))
     = 0%nat.
Proof.
  split; [reflexivity |]. split; [| reflexivity].
  exact (proj1 (edit_past_the_end_starts_a_dead_recognition "alpha beta"
                  [(0%nat, [mkResult true 0 "alpha"]);
                   (0%nat, [mkResult true 0 "beta"])]
                  (run [ToggleListening; Results 0 0 [mkResult true 0 "three"]]
                       (mount "one two three two four"))
                  ltac:(discriminate) ltac:(vm_compute; lia))).
Defined.

(** Text after a whitespace character is tokenized on its own. *)
Lemma fieldsBy_append (sep : ascii -> bool) (cur a b : string) (c : ascii) :
  sep c = true ->
  fieldsBy sep cur (a ++ String c b)
  = (fieldsBy sep cur a ++ fieldsBy sep "" b)%list.
Proof.
  intros Hc. revert cur. induction a as [| x a IH]; intros cur; simpl.
  - now rewrite Hc.
  - destruct (sep x); [now rewrite IH | apply IH].
Qed.

(** X15: text added to the script after a whitespace character adds its
    tokens after those already there: the tokens before it keep their
    indices, so the cursor still points at the same word. *)
Theorem words_append (a b : string) (c : ascii) :
  isSpace c = true ->
  words (a ++ String c b) = (words a ++ words b)%list
  /\ forall i, (i < List.length (words a))%nat ->
               words (a ++ String c b) !! i = words a !! i.
Proof.
  intros Hc.
  assert (E : words (a ++ String c b) = (words a ++ words b)%list).
  { rewrite !words_tokensBySpec. unfold tokensBySpec.
    rewrite (fieldsBy_append isSpace "" a b c Hc).
    apply List.filter_app. }
  split; [exact E |].
  intros i Hi. rewrite E. now apply lookup_app_l.
Qed.

Lemma words_append_witness :
  words ("one two" ++ String "010"%char "three") = ["one"; "two"; "three"].
Proof.
  rewrite (proj1 (words_append "one two" "three" "010"%char eq_refl)).
  reflexivity.
Defined.

End Session.

(* ------------------------------------------------------------------ *)
(** ** The voice indicator in smart mode, and the volume levels *)

Section Indicator.
Import Teleprompter.

(** X16: a recognition result switches the voice indicator on and
    leaves exactly one timeout pending, due 1000 ms later, whatever
    timeout was pending before; the indicator can be switched off by
    that timeout only, and not before it is due. *)
Theorem onresult_holds_the_indicator
        (sensitivity now : Z) (g : Detector) :
  settled g ->
  settled (onresultIndicator now g)
  /\ voiceActive (onresultIndicator now g) = true
  /\ pending (onresultIndicator now g) = [(nextId g, now + 1000)]
  /\ (forall t id g',
         step sensitivity (onresultIndicator now g) (Timeout t id) = Some g' ->
         id = nextId g /\ now + 1000 <= t /\ voiceActive g' = false
         /\ pending g' = [])
  /\ (forall later,
         pending (onresultIndicator later (onresultIndicator now g))
         = [(S (nextId g), later + 1000)]).
Proof.
  intros Hg.
  assert (Hp : pending (onresultIndicator now g) = [(nextId g, now + 1000)]).
  { unfold onresultIndicator. cbn [pending]. f_equal.
    destruct Hg as [[Hp _] | (id & due & Hp & Hr & _)]; rewrite Hp.
    - now destruct (silenceTimerRef g).
    - rewrite Hr. apply clearTimeout_single. }
  assert (Hs : settled (onresultIndicator now g)).
  { right. exists (nextId g), (now + 1000). now split. }
  split; [exact Hs |]. split; [reflexivity |]. split; [exact Hp |]. split.
  - intros t id g' Hstep.
    destruct (timeout_step sensitivity t id _ g' Hs Hstep)
      as (due & Hpd & Hdue & _ & ->).
    rewrite Hp in Hpd. injection Hpd as -> ->. now repeat split.
  - intros later.
    assert (Hr : silenceTimerRef (onresultIndicator now g) = Some (nextId g))
      by reflexivity.
    assert (Hi : nextId (onresultIndicator now g) = S (nextId g))
      by reflexivity.
    generalize dependent (onresultIndicator now g). intros g1 Hp _ Hr Hi.
    unfold onresultIndicator. cbn [pending].
    now rewrite Hr, Hi, Hp, clearTimeout_single.
Qed.

Lemma onresult_holds_the_indicator_witness :
  pending (onresultIndicator 5000 idle) = [(0%nat, 6000)].
Proof.
  destruct (onresult_holds_the_indicator 20 5000 idle settled_idle)
    as (_ & _ & Hp & _).
  exact Hp.
Defined.

Lemma sum_bounds (lo hi : Z) (dataArray : list Z) (acc : Z) :
  Forall (fun d => lo <= d <= hi) dataArray ->
  acc + lo * Z.of_nat (List.length dataArray)
  <= fold_left Z.add dataArray acc
  <= acc + hi * Z.of_nat (List.length dataArray).
Proof.
  intros H. revert acc.
  induction H as [| d l Hd _ IH]; intros acc; cbn [fold_left List.length].
  - lia.
  - specialize (IH (acc + d)). lia.
Qed.

(** X17: over the range of the sensitivity slider, 1 to 100, a frame
    whose bytes are all at most 15 never counts as voice and a frame
    whose bytes are all at least 55 always does; and raising the
    sensitivity never turns a frame that counted as voice into one that
    does not. *)
Theorem volume_levels (sensitivity higher : Z) (dataArray : list Z) :
  dataArray <> [] ->
  1 <= sensitivity <= 100 ->
  (Forall (fun d => 0 <= d <= 15) dataArray ->
   Qgtb (average dataArray) (threshold sensitivity) = false)
  /\ (Forall (fun d => 55 <= d <= 255) dataArray ->
      Qgtb (average dataArray) (threshold sensitivity) = true)
  /\ (sensitivity <= higher ->
      Qgtb (average dataArray) (threshold sensitivity) = true ->
      Qgtb (average dataArray) (threshold higher) = true).
Proof.
  intros Hne Hs.
  assert (Hn : 0 < Z.of_nat (List.length dataArray))
    by (destruct dataArray; [congruence | cbn [List.length]; lia]).
  split; [| split].
  - intros Hq. apply not_true_is_false. intros E.
    apply (average_above sensitivity dataArray Hne) in E.
    pose proof (sum_bounds 0 15 dataArray 0 Hq). nia.
  - intros Hl. apply (average_above sensitivity dataArray Hne).
    pose proof (sum_bounds 55 255 dataArray 0 Hl). nia.
  - intros Hh E.
    apply (average_above sensitivity dataArray Hne) in E.
    apply (average_above higher dataArray Hne). nia.
Qed.

Lemma volume_levels_witness :
  Qgtb (average [60; 70; 80]) (threshold 20) = true.
Proof.
  destruct (volume_levels 20 20 [60; 70; 80] ltac:(discriminate) ltac:(lia))
    as (_ & Hloud & _).
  apply Hloud. repeat constructor; lia.
Defined.

End Indicator.

(* ------------------------------------------------------------------ *)
(** ** The shot list and the recorder over sequences of events *)

Section RecordingInvariant.
Import JS App.
Local Open Scope string_scope.

Lemma recordingConsistent_idle (st : State) :
  isRecording st = false ->
  recordingConsistent st = true
  <-> recordingTimerRef st = None /\ intervals st = []
      /\ recorderLive st = false.
Proof.
  intros Hr. unfold recordingConsistent. rewrite Hr.
  destruct (recordingTimerRef st), (intervals st);
    rewrite ?negb_true_iff; intuition congruence.
Qed.

Lemma recordingConsistent_recording (st : State) :
  isRecording st = true ->
  recordingConsistent st = true
  <-> exists t, recordingTimerRef st = Some t /\ intervals st = [t]
                /\ recorderLive st = true.
Proof.
  intros Hr. unfold recordingConsistent. rewrite Hr.
  destruct (recordingTimerRef st) as [t |], (intervals st) as [| t' [| ? ?]];
    try (split; [discriminate | intros (? & ? & ? & ?); congruence]).
  rewrite andb_true_iff, Nat.eqb_eq. split.
  - intros [-> Hl]. now exists t.
  - intros (t0 & [= <-] & [= ->] & Hl). now split.
Qed.

Lemma recorderLive_spec (st : State) :
  (recorderLive st = true
   <-> exists r, mediaRecorderRef st = Some r /\ recState r <> Inactive)
  /\ (recorderLive st = false
      <-> mediaRecorderRef st = None
          \/ exists r, mediaRecorderRef st = Some r /\ recState r = Inactive).
Proof.
  unfold recorderLive. destruct (mediaRecorderRef st) as [r |].
  - destruct (recState r) eqn:E; split; split;
      try discriminate; try reflexivity.
    + intros (r' & [= <-] & H). congruence.
    + intros _. right. now exists r.
    + intros _. exists r. split; [reflexivity | congruence].
    + intros [H | (r' & [= <-] & H)]; congruence.
    + intros _. exists r. split; [reflexivity | congruence].
    + intros [H | (r' & [= <-] & H)]; congruence.
  - split; split; try discriminate; try reflexivity.
    + intros (r & H & _). discriminate.
    + intros _. now left.
Qed.

Lemma stopRecording_consistent (now : Date) (st : State) :
  recordingConsistent st = true ->
  recordingConsistent (stopRecording now st) = true
  /\ isRecording (stopRecording now st) = false
  /\ List.length (downloads (stopRecording now st))
     = (List.length (downloads st) + if isRecording st then 1 else 0)%nat.
Proof.
  intros Hc. destruct (isRecording st) eqn:Hr.
  - apply (recordingConsistent_recording st Hr) in Hc.
    destruct Hc as (t & Ht & Hi & Hl).
    apply (proj1 (recorderLive_spec st)) in Hl. destruct Hl as (r & Hm & Hs).
    rewrite (stopRecording_live now st r Hm Hs).
    unfold stoppedTimers, clearInterval. rewrite Ht, Hi.
    cbn. rewrite Nat.eqb_refl. cbn.
    rewrite List.length_app. cbn. repeat split; lia.
  - apply (recordingConsistent_idle st Hr) in Hc.
    destruct Hc as (Ht & Hi & Hl).
    pose proof (proj1 (proj2 (recorderLive_spec st)) Hl) as Hidle.
    rewrite (stopRecording_idle now st Hidle).
    unfold stoppedTimers. rewrite Ht, Hi.
    unfold recordingConsistent, recorderLive in *. cbn.
    rewrite Hl. repeat split; lia.
Qed.

Lemma startRecording_consistent (mime : string) (st : State) :
  isRecording st = false ->
  recordingConsistent st = true ->
  recordingConsistent (startRecording mime st) = true
  /\ downloads (startRecording mime st) = downloads st.
Proof.
  intros Hr Hc. pose proof Hc as Hc'.
  apply (recordingConsistent_idle st Hr) in Hc.
  destruct Hc as (Ht & Hi & Hl).
  unfold startRecording.
  destruct (negb (videoStream st) && negb (audioStream st)).
  - split; [| reflexivity].
    unfold recordingConsistent, recorderLive in *. cbn. exact Hc'.
  - split; [| reflexivity].
    unfold recordingConsistent, recorderLive, stoppedTimers. cbn.
    rewrite Ht, Hi, Nat.eqb_refl. reflexivity.
Qed.

Lemma act_consistent (st : State) (a : Action) :
  recordingConsistent st = true ->
  recordingConsistent (act st a) = true
  /\ List.length (downloads (act st a))
     = (List.length (downloads st)
        + if isRecording st && negb (isRecording (act st a)) then 1 else 0)%nat.
Proof.
  intros Hc. destruct a as [stamp nm | i | i | i | mime now | now]; cbn [act].
  - split; [exact Hc |]. cbn. rewrite andb_negb_r. lia.
  - split; [exact Hc |]. cbn. rewrite andb_negb_r. lia.
  - split; [exact Hc |]. cbn. rewrite andb_negb_r. lia.
  - split; [exact Hc |]. cbn. rewrite andb_negb_r. lia.
  - unfold handleToggleRecord. destruct (isRecording st) eqn:Hr.
    + destruct (stopRecording_consistent now st Hc) as (H1 & H2 & H3).
      rewrite H2, H3, Hr. now split.
    + destruct (startRecording_consistent mime st Hr Hc) as [H1 H2].
      rewrite H2. split; [exact H1 | cbn; lia].
  - destruct (mediaRecorderRef st) as [r |] eqn:Hm.
    + rewrite onerror_eq.
      destruct (stopRecording_consistent now st Hc) as (H1 & H2 & H3).
      split.
      * unfold recordingConsistent, recorderLive in H1 |- *.
        cbn [isRecording recordingTimerRef intervals mediaRecorderRef].
        exact H1.
      * cbn [isRecording downloads]. rewrite H2, H3.
        destruct (isRecording st); reflexivity.
    + split; [exact Hc |]. rewrite andb_negb_r. lia.
Qed.

(** X18: the recording flag, the duration interval and the recorder
    stay in step through any sequence of shot-list edits, presses of
    the record button and recorder errors: while recording exactly one
    interval runs and the recorder is live, otherwise no interval runs
    and no recorder is live; and a file is saved exactly when the flag
    falls, one file each time. *)
Theorem recording_stays_consistent (actions : list Action) (st : State) :
  recordingConsistent st = true ->
  recordingConsistent (run actions st) = true
  /\ (List.length (intervals (run actions st))
      = if isRecording (run actions st) then 1 else 0)%nat
  /\ forall a,
       List.length (downloads (act (run actions st) a))
       = (List.length (downloads (run actions st))
          + if isRecording (run actions st)
               && negb (isRecording (act (run actions st) a))
            then 1 else 0)%nat.
Proof.
  intros Hc.
  assert (H : recordingConsistent (run actions st) = true).
  { unfold run. revert st Hc.
    induction actions as [| a actions IH]; intros st Hc; cbn [fold_left].
    - exact Hc.
    - apply IH. apply act_consistent, Hc. }
  split; [exact H |]. split.
  - destruct (isRecording (run actions st)) eqn:Hr.
    + apply (recordingConsistent_recording _ Hr) in H.
      destruct H as (t & _ & -> & _). reflexivity.
    + apply (recordingConsistent_idle _ Hr) in H.
      destruct H as (_ & -> & _). reflexivity.
  - intros a. apply act_consistent, H.
Qed.

Lemma recording_stays_consistent_witness :
  recordingConsistent
    (run [AddShot "17" "Intro"; ToggleRecord "video/webm" (mkDate 2024 2 7 9 5);
          RecorderError (mkDate 2024 2 7 9 6)]
         (mkState [] None true true false None None [] 0 [] [] []))
  = true.
Proof.
  exact (proj1 (recording_stays_consistent
                  [AddShot "17" "Intro";
                   ToggleRecord "video/webm" (mkDate 2024 2 7 9 5);
                   RecorderError (mkDate 2024 2 7 9 6)]
                  (mkState [] None true true false None None [] 0 [] [] [])
                  eq_refl)).
Defined.

(** X19: stopping twice is stopping once: a second [stopRecording]
    leaves the state of the first, so it saves no second file and
    counts no second take. *)
Theorem stopRecording_twice (now later : Date) (st : State) :
  stopRecording later (stopRecording now st) = stopRecording now st.
Proof.
  destruct (recorder_live_or_idle st) as [(r & Hm & Hs) | Hidle].
  - rewrite (stopRecording_live now st r Hm Hs).
    rewrite stopRecording_idle; [reflexivity |].
    right. eexists. split; reflexivity.
  - rewrite (stopRecording_idle now st Hidle).
    rewrite stopRecording_idle; [reflexivity | exact Hidle].
Qed.

End RecordingInvariant.

(* ------------------------------------------------------------------ *)
(** ** Successive takes of one shot *)

Section Takes.
Import JS App.
Local Open Scope string_scope.

Lemma startRecording_fields (mime : string) (st : State) :
  videoStream st || audioStream st = true ->
  shots (startRecording mime st) = shots st
  /\ activeShotId (startRecording mime st) = activeShotId st
  /\ videoStream (startRecording mime st) = videoStream st
  /\ audioStream (startRecording mime st) = audioStream st
  /\ isRecording (startRecording mime st) = true
  /\ downloads (startRecording mime st) = downloads st.
Proof.
  intros H. unfold startRecording.
  destruct (videoStream st), (audioStream st); try discriminate;
    repeat split.
Qed.

(** The selected shot after its take has been counted. *)
Lemma findShot_bumpTake (l : list Shot) (a : option string) (shot : Shot) :
  findShot l a = Some shot ->
  findShot (bumpTake (id shot) l) a
  = Some (mkShot (id shot) (name shot) (completed shot) (take shot + 1)).
Proof.
  intros H. destruct (findShot_Some l a shot H) as [-> _].
  cbn [findShot] in *.
  induction l as [| s l IH]; [discriminate |].
  cbn [List.find bumpTake List.map] in *.
  destruct (id s =? id shot) eqn:E.
  - injection H as ->. cbn. now rewrite String.eqb_refl.
  - rewrite E. now apply IH.
Qed.

Lemma recordTake_once (mime : string) (now : Date) (st : State) (shot : Shot) :
  videoStream st || audioStream st = true ->
  isRecording st = false ->
  findShot (shots st) (activeShotId st) = Some shot ->
  downloads (run (recordTake mime now) st)
  = (downloads st
       ++ [((underscoreRuns (name shot) ++ "_Take"
               ++ numberToString (take shot))
              ++ "." ++ extension mime)%string])%list
  /\ shots (run (recordTake mime now) st) = bumpTake (id shot) (shots st)
  /\ activeShotId (run (recordTake mime now) st) = activeShotId st
  /\ videoStream (run (recordTake mime now) st) = videoStream st
  /\ audioStream (run (recordTake mime now) st) = audioStream st
  /\ isRecording (run (recordTake mime now) st) = false.
Proof.
  intros Hs Hr Hf. unfold run, recordTake. cbn [fold_left act].
  assert (E1 : handleToggleRecord mime now st = startRecording mime st)
    by (unfold handleToggleRecord; now rewrite Hr).
  rewrite E1.
  destruct (startRecording_fields mime st Hs) as (F1 & F2 & F3 & F4 & F5 & F6).
  unfold handleToggleRecord. rewrite F5.
  rewrite (stopRecording_live now _ _ (startRecording_closure mime st Hs))
    by discriminate.
  cbn [downloads shots activeShotId videoStream audioStream isRecording
       seenShots seenActiveShotId mimeType].
  rewrite (onstopNaming_shot _ _ now _ shot Hf). cbn [fst snd].
  rewrite F1, F2, F3, F4, F6. repeat split.
Qed.

(** X20: takes count up.  With a source connected, no recording under
    way and a shot selected, pressing the record button twice, as many
    times over as one likes, saves one file per recording, named after
    the shot with the take numbers [take], [take + 1], ... in order, and
    leaves the shot selected with its take counter raised by the number
    of recordings. *)
Theorem takes_count_up (mime : string) (nows : list Date) (st : State)
        (shot : Shot) :
  videoStream st || audioStream st = true ->
  isRecording st = false ->
  findShot (shots st) (activeShotId st) = Some shot ->
  downloads (run (List.flat_map (recordTake mime) nows) st)
  = (downloads st
       ++ List.map (fun k => ((underscoreRuns (name shot) ++ "_Take"
                                 ++ numberToString (take shot + Z.of_nat k))
                                ++ "." ++ extension mime)%string)
                   (List.seq 0 (List.length nows)))%list
  /\ findShot (shots (run (List.flat_map (recordTake mime) nows) st))
              (activeShotId (run (List.flat_map (recordTake mime) nows) st))
     = Some (mkShot (id shot) (name shot) (completed shot)
                    (take shot + Z.of_nat (List.length nows))).
Proof.
  revert st shot. induction nows as [| now nows IH]; intros st shot Hs Hr Hf.
  - cbn. rewrite List.app_nil_r, Z.add_0_r. split; [reflexivity |].
    rewrite Hf. now destruct shot.
  - cbn [List.flat_map]. unfold run. rewrite List.fold_left_app.
    fold (run (recordTake mime now) st).
    fold (run (List.flat_map (recordTake mime) nows)
              (run (recordTake mime now) st)).
    destruct (recordTake_once mime now st shot Hs Hr Hf)
      as (D & S1 & A & V & Au & R).
    set (st1 := run (recordTake mime now) st) in *.
    assert (Hf1 : findShot (shots st1) (activeShotId st1)
                  = Some (mkShot (id shot) (name shot) (completed shot)
                                 (take shot + 1))).
    { rewrite S1, A. now apply findShot_bumpTake. }
    destruct (IH st1 _ ltac:(now rewrite V, Au) R Hf1) as [IHd IHf].
    cbn [id name completed take] in IHd, IHf.
    split.
    + rewrite IHd, D, <- List.app_assoc. f_equal.
      cbn [List.length List.seq List.map app].
      rewrite Z.add_0_r. f_equal.
      rewrite <- List.seq_shift, List.map_map.
      apply List.map_ext. intros k.
      now replace (take shot + 1 + Z.of_nat k)%Z
        with (take shot + Z.of_nat (S k))%Z by lia.
    + rewrite IHf. do 2 f_equal. cbn [List.length]. lia.
Qed.

Lemma takes_count_up_witness :
  downloads
    (run (List.flat_map (recordTake "video/mp4")
                        [mkDate 2024 2 7 9 5; mkDate 2024 2 7 9 9])
         (mkState [mkShot "17" "Intro Scene" false 1] (Some "17")
                  true true false None None [] 0 [] [] []))
  = ["Intro_Scene_Take1.mp4"; "Intro_Scene_Take2.mp4"].
Proof.
  exact (proj1 (takes_count_up "video/mp4"
                  [mkDate 2024 2 7 9 5; mkDate 2024 2 7 9 9]
                  (mkState [mkShot "17" "Intro Scene" false 1] (Some "17")
                           true true false None None [] 0 [] [] [])
                  (mkShot "17" "Intro Scene" false 1)
                  eq_refl eq_refl eq_refl)).
Defined.

End Takes.

(* ------------------------------------------------------------------ *)
(** ** Edits of the shot list *)

Section ShotListEdits.
Import JS App.
Local Open Scope string_scope.

Lemma listed_app (a : string) (l l' : list Shot) :
  listed a (l ++ l')%list = listed a l || listed a l'.
Proof. apply List.existsb_app. Qed.

Lemma listed_filter (a i : string) (l : list Shot) :
  a <> i ->
  listed a (List.filter (fun s => negb (id s =? i)) l) = listed a l.
Proof.
  intros Hne. induction l as [| s l IH]; [reflexivity |].
  cbn [List.filter].
  destruct (String.eqb_spec (id s) i) as [E | E]; cbn [negb].
  - rewrite IH. unfold listed. cbn [List.existsb].
    destruct (String.eqb_spec (id s) a); [congruence | reflexivity].
  - unfold listed in *. cbn [List.existsb]. now rewrite IH.
Qed.

Lemma listed_map (a : string) (f : Shot -> Shot) (l : list Shot) :
  (forall s, id (f s) = id s) ->
  listed a (List.map f l) = listed a l.
Proof.
  intros Hf. induction l as [| s l IH]; [reflexivity |].
  unfold listed in *. cbn [List.map List.existsb]. now rewrite Hf, IH.
Qed.

Lemma listed_bumpTake (a x : string) (l : list Shot) :
  listed a (bumpTake x l) = listed a l.
Proof.
  apply listed_map. intros s. now destruct (id s =? x).
Qed.

Lemma listed_find (a : string) (l : list Shot) :
  listed a l = true <-> List.find (fun s => id s =? a) l <> None.
Proof.
  unfold listed. induction l as [| s l IH]; cbn [List.existsb List.find].
  - split; [discriminate | congruence].
  - destruct (id s =? a); cbn [orb];
      [split; [discriminate | reflexivity] | exact IH].
Qed.

Lemma stopRecording_shots (now : Date) (st : State) :
  activeShotId (stopRecording now st) = activeShotId st
  /\ forall a, listed a (shots (stopRecording now st)) = listed a (shots st).
Proof.
  destruct (recorder_live_or_idle st) as [(r & Hm & Hs) | Hidle].
  - rewrite (stopRecording_live now st r Hm Hs).
    cbn [activeShotId shots]. split; [reflexivity |]. intros a.
    unfold onstopNaming.
    destruct (findShot (seenShots r) (seenActiveShotId r)); cbn [snd];
      [apply listed_bumpTake | reflexivity].
  - rewrite (stopRecording_idle now st Hidle). now split.
Qed.

Lemma startRecording_shots (mime : string) (st : State) :
  activeShotId (startRecording mime st) = activeShotId st
  /\ shots (startRecording mime st) = shots st.
Proof.
  unfold startRecording.
  destruct (negb (videoStream st) && negb (audioStream st)); now split.
Qed.

Lemma act_activeListed (st : State) (a : Action) :
  activeListed st = true -> allowed st a = true ->
  activeListed (act st a) = true.
Proof.
  unfold activeListed. intros Hl Ha.
  destruct a as [stamp nm | i | i | i | mime now | now]; cbn [act].
  - cbn [handleAddShot activeShotId shots].
    assert (Hnew : listed stamp (shots st ++ [mkShot stamp nm false 1])%list
                   = true).
    { rewrite listed_app. cbn. now rewrite String.eqb_refl, !orb_true_r. }
    destruct (activeShotId st) as [a |]; [| exact Hnew].
    destruct (String.length a =? 0)%nat; [exact Hnew |].
    rewrite listed_app, Hl. reflexivity.
  - cbn [handleDeleteShot activeShotId shots].
    destruct (activeShotId st) as [a |]; [| reflexivity].
    destruct (String.eqb_spec a i) as [E | E]; [reflexivity |].
    now rewrite listed_filter.
  - cbn [handleToggleShotComplete activeShotId shots].
    destruct (activeShotId st) as [a |]; [| reflexivity].
    rewrite listed_map; [exact Hl |].
    intros s. now destruct (id s =? i).
  - exact Ha.
  - unfold handleToggleRecord. destruct (isRecording st).
    + destruct (stopRecording_shots now st) as [-> Hs].
      destruct (activeShotId st); [now rewrite Hs | reflexivity].
    + destruct (startRecording_shots mime st) as [-> ->]. exact Hl.
  - destruct (mediaRecorderRef st); [| exact Hl].
    rewrite onerror_eq. cbn [activeShotId shots].
    destruct (stopRecording_shots now st) as [-> Hs].
    destruct (activeShotId st); [now rewrite Hs | reflexivity].
Qed.

(** X21: the selection never dangles.  From a state whose selected id
    is null or the id of a listed shot, any sequence of additions,
    deletions, completion marks, clicks on listed shots, presses of the
    record button and recorder errors leads to such a state again; so
    the lookup of the selected shot fails only when nothing is
    selected. *)
Theorem selection_stays_listed (actions : list Action) (st : State) :
  activeListed st = true ->
  valid st actions = true ->
  activeListed (run actions st) = true
  /\ (findShot (shots (run actions st)) (activeShotId (run actions st)) = None
      <-> activeShotId (run actions st) = None).
Proof.
  intros Hl Hv.
  assert (H : activeListed (run actions st) = true).
  { unfold run. revert st Hl Hv.
    induction actions as [| a actions IH]; intros st Hl Hv;
      cbn [fold_left valid] in *.
    - exact Hl.
    - apply andb_true_iff in Hv. destruct Hv as [Ha Hv].
      apply IH; [now apply act_activeListed | exact Hv]. }
  split; [exact H |].
  unfold activeListed in H. unfold findShot.
  destruct (activeShotId (run actions st)) as [a |]; [| now split].
  apply listed_find in H. split; [contradiction | discriminate].
Qed.

Lemma selection_stays_listed_witness :
  activeShotId
    (run [AddShot "17" "Intro"; AddShot "18" "Outro"; SelectShot "18";
          DeleteShot "18"] initial) = None.
Proof.
  apply (proj2 (selection_stays_listed
                  [AddShot "17" "Intro"; AddShot "18" "Outro"; SelectShot "18";
                   DeleteShot "18"] initial eq_refl eq_refl)).
  reflexivity.
Defined.

(** X22: marking a shot complete twice restores the state, and a mark
    changes no id, no name and no take counter. *)
Theorem handleToggleShotComplete_twice (i : string) (st : State) :
  handleToggleShotComplete i (handleToggleShotComplete i st) = st
  /\ List.map id (shots (handleToggleShotComplete i st)) = List.map id (shots st)
  /\ List.map name (shots (handleToggleShotComplete i st))
     = List.map name (shots st)
  /\ List.map take (shots (handleToggleShotComplete i st))
     = List.map take (shots st).
Proof.
  unfold handleToggleShotComplete.
  cbn [shots activeShotId videoStream audioStream isRecording mediaRecorderRef
       recordingTimerRef intervals nextInterval alerts consoleErrors downloads].
  rewrite !List.map_map. split; [| split; [| split]].
  - destruct st as [l ? ? ? ? ? ? ? ? ? ? ?]. cbn. f_equal.
    induction l as [| s l IH]; [reflexivity |].
    cbn [List.map]. rewrite IH. f_equal.
    destruct (id s =? i) eqn:E; cbn [id]; rewrite E; [| reflexivity].
    destruct s. cbn. now rewrite negb_involutive.
  - apply List.map_ext. intros s. now destruct (id s =? i).
  - apply List.map_ext. intros s. now destruct (id s =? i).
  - apply List.map_ext. intros s. now destruct (id s =? i).
Qed.

Lemma filter_fresh (stamp : string) (l : list Shot) :
  Forall (fun s => id s <> stamp) l ->
  List.filter (fun s => negb (id s =? stamp)) l = l.
Proof.
  induction 1 as [| s l Hs _ IH]; [reflexivity |].
  cbn. apply String.eqb_neq in Hs. rewrite Hs. cbn. now rewrite IH.
Qed.

(** X23: adding a shot under an id no shot has and deleting it again
    restores the state, provided the selection was not that id and not
    the empty string. *)
Theorem add_then_delete_restores (stamp nm : string) (st : State) :
  Forall (fun s => id s <> stamp) (shots st) ->
  activeShotId st <> Some stamp ->
  activeShotId st <> Some "" ->
  handleDeleteShot stamp (handleAddShot stamp nm st) = st.
Proof.
  intros Hfresh Hsel Hempty.
  unfold handleDeleteShot, handleAddShot.
  cbn [shots activeShotId videoStream audioStream isRecording mediaRecorderRef
       recordingTimerRef intervals nextInterval alerts consoleErrors downloads].
  rewrite List.filter_app, (filter_fresh stamp _ Hfresh).
  cbn. rewrite String.eqb_refl. cbn. rewrite List.app_nil_r.
  destruct st as [l a ? ? ? ? ? ? ? ? ? ?]. cbn in *. f_equal.
  destruct a as [a |]; [| now rewrite String.eqb_refl].
  destruct a as [| c a]; [congruence |]. cbn [String.length Nat.eqb].
  destruct (String.eqb_spec (String c a) stamp); [congruence | reflexivity].
Qed.

Lemma add_then_delete_restores_witness :
  handleDeleteShot "18"
    (handleAddShot "18" "Outro"
       (mkState [mkShot "17" "Intro" false 1] (Some "17")
                false false false None None [] 0 [] [] []))
  = mkState [mkShot "17" "Intro" false 1] (Some "17")
            false false false None None [] 0 [] [] [].
Proof.
  apply (add_then_delete_restores "18" "Outro"
           (mkState [mkShot "17" "Intro" false 1] (Some "17")
                    false false false None None [] 0 [] [] [])).
  - repeat constructor. discriminate.
  - discriminate.
  - discriminate.
Defined.

End ShotListEdits.

(* ------------------------------------------------------------------ *)
(** ** The form of the shot list, and the container of the file *)

Section Submit.
Import JS App.
Local Open Scope string_scope.

Lemma trimStart_spec (s : string) :
  (trimStart s = "" /\ everyChar isSpace s = true)
  \/ (exists c r, trimStart s = String c r /\ isSpace c = false
                  /\ everyChar isSpace s = false).
Proof.
  induction s as [| c s IH]; simpl.
  - now left.
  - destruct (isSpace c) eqn:Hc; simpl.
    + exact IH.
    + right. now exists c, s.
Qed.

Lemma trimEnd_head (c : ascii) (s : string) :
  isSpace c = false -> exists r, trimEnd (String c s) = String c r.
Proof.
  intros Hc. simpl. destruct (trimEnd s) as [| x r].
  - rewrite Hc. now exists "".
  - now exists (String x r).
Qed.

Lemma trimEnd_idem (s : string) : trimEnd (trimEnd s) = trimEnd s.
Proof.
  induction s as [| c s IH]; simpl; [reflexivity |].
  destruct (trimEnd s) as [| x r] eqn:E.
  - destruct (isSpace c) eqn:Hc; simpl; [reflexivity | now rewrite Hc].
  - cbn [trimEnd] in IH |- *. fold trimEnd in IH |- *.
    change (trimEnd (String c (String x r)))
      with (match trimEnd (String x r) with
            | "" => if isSpace c then "" else String c ""
            | r' => String c r'
            end).
    now rewrite IH.
Qed.

Lemma trim_idem (s : string) : trim (trim s) = trim s.
Proof.
  unfold trim.
  destruct (trimStart_spec s) as [[-> _] | (c & r & -> & Hc & _)];
    [reflexivity |].
  destruct (trimEnd_head c r Hc) as [r' E].
  rewrite E at 1. cbn [trimStart]. rewrite Hc, <- E.
  apply trimEnd_idem.
Qed.

Lemma trim_empty_iff (s : string) :
  trim s = "" <-> everyChar isSpace s = true.
Proof.
  split; [| apply trim_all_space].
  unfold trim.
  destruct (trimStart_spec s) as [[_ H] | (c & r & -> & Hc & _)];
    [now intros _ |].
  destruct (trimEnd_head c r Hc) as [r' ->]. discriminate.
Qed.

(** X24: the form adds nothing for a name that is empty or all
    whitespace; any other name is stored trimmed, so the stored name is
    not empty and trimming it again changes nothing. *)
Theorem handleSubmit_trims (stamp newShotName : string) (st : State) :
  (everyChar isSpace newShotName = true ->
   ShotList.handleSubmit stamp newShotName st = st)
  /\ (everyChar isSpace newShotName = false ->
      ShotList.handleSubmit stamp newShotName st
      = handleAddShot stamp (trim newShotName) st
      /\ shots (ShotList.handleSubmit stamp newShotName st)
         = (shots st ++ [mkShot stamp (trim newShotName) false 1])%list
      /\ trim newShotName <> ""
      /\ trim (trim newShotName) = trim newShotName).
Proof.
  unfold ShotList.handleSubmit. split.
  - intros H. now rewrite (trim_all_space _ H).
  - intros H.
    assert (Hne : trim newShotName <> "").
    { intros E. apply trim_empty_iff in E. congruence. }
    destruct (trim newShotName) as [| c r] eqn:E; [congruence |].
    cbn [String.length Nat.ltb Nat.leb].
    repeat split; [discriminate |].
    rewrite <- E. apply trim_idem.
Qed.

End Submit.

Section Container.
Import JS App.
Local Open Scope string_scope.

(** X25: the container of the saved file.  [getSupportedMimeType]
    returns the first type of its list that the platform supports:
    every type before it in the list is unsupported; it returns the
    empty string when the platform supports none.  The file is saved as
    .mp4 only when the platform supports video/mp4 and none of the
    three webm types, and as .webm in every other case, also when no
    type is supported. *)
Theorem saved_file_extension (isTypeSupported : string -> bool) :
  (getSupportedMimeType isTypeSupported = ""
   /\ Forall (fun t => isTypeSupported t = false) mimeTypes
   \/ exists before after,
        mimeTypes
        = (before ++ getSupportedMimeType isTypeSupported :: after)%list
        /\ Forall (fun t => isTypeSupported t = false) before
        /\ isTypeSupported (getSupportedMimeType isTypeSupported) = true)
  /\ (isTypeSupported "video/webm;codecs=vp9,opus" = true ->
      getSupportedMimeType isTypeSupported = "video/webm;codecs=vp9,opus")
  /\ (isTypeSupported "video/webm;codecs=vp9,opus" = false ->
      isTypeSupported "video/webm;codecs=vp8,opus" = true ->
      getSupportedMimeType isTypeSupported = "video/webm;codecs=vp8,opus")
  /\ (isTypeSupported "video/webm;codecs=vp9,opus" = false ->
      isTypeSupported "video/webm;codecs=vp8,opus" = false ->
      isTypeSupported "video/webm" = true ->
      getSupportedMimeType isTypeSupported = "video/webm")
  /\ (isTypeSupported "video/webm;codecs=vp9,opus" = false ->
      isTypeSupported "video/webm;codecs=vp8,opus" = false ->
      isTypeSupported "video/webm" = false ->
      isTypeSupported "video/mp4" = true ->
      getSupportedMimeType isTypeSupported = "video/mp4")
  /\ (extension (getSupportedMimeType isTypeSupported) = "mp4"
      <-> isTypeSupported "video/webm;codecs=vp9,opus" = false
          /\ isTypeSupported "video/webm;codecs=vp8,opus" = false
          /\ isTypeSupported "video/webm" = false
          /\ isTypeSupported "video/mp4" = true)
  /\ (extension (getSupportedMimeType isTypeSupported) = "mp4"
      \/ extension (getSupportedMimeType isTypeSupported) = "webm").
Proof.
  unfold getSupportedMimeType, mimeTypes. cbn [List.find].
  destruct (isTypeSupported "video/webm;codecs=vp9,opus") eqn:E1.
  { split; [right; exists [], ["video/webm;codecs=vp8,opus"; "video/webm";
                               "video/mp4"];
            split; [reflexivity | split; [constructor | exact E1]] |].
    repeat split; try discriminate; try (now right).
    intros (H & _); discriminate. }
  destruct (isTypeSupported "video/webm;codecs=vp8,opus") eqn:E2.
  { split; [right; exists ["video/webm;codecs=vp9,opus"],
                          ["video/webm"; "video/mp4"];
            split; [reflexivity
                   | split; [repeat constructor; exact E1 | exact E2]] |].
    repeat split; try discriminate; try (now right).
    intros (_ & H & _); discriminate. }
  destruct (isTypeSupported "video/webm") eqn:E3.
  { split; [right; exists ["video/webm;codecs=vp9,opus";
                           "video/webm;codecs=vp8,opus"], ["video/mp4"];
            split; [reflexivity
                   | split; [repeat constructor; assumption | exact E3]] |].
    repeat split; try discriminate; try (now right).
    intros (_ & _ & H & _); discriminate. }
  destruct (isTypeSupported "video/mp4") eqn:E4.
  { split; [right; exists ["video/webm;codecs=vp9,opus";
                           "video/webm;codecs=vp8,opus"; "video/webm"], [];
            split; [reflexivity
                   | split; [repeat constructor; assumption | exact E4]] |].
    repeat split; try discriminate; try (now left). }
  split; [left; split; [reflexivity | repeat constructor; assumption] |].
  repeat split; try discriminate; try (now right).
  intros (_ & _ & _ & H); discriminate.
Qed.

End Container.
